(** * ZAPPS-SOL-ARB: a shallow embedding of the arbitrage engine

    The development follows two Python files of the repository:
    - [src/modules/price_cache.py]: [PriceCache], a TTL cache over a bounded
      [OrderedDict];
    - [src/arbitrage_bot.py] (the packaged bot, "Version: 2.0.0", the one
      the test suite exercises): [ArbitrageOpportunity], [TradeResult], the
      per-venue quote operations, [find_arbitrage_opportunities] and
      [execute_arbitrage] of [ProductionArbitrageBot].

    Conventions.
    - [Decimal] amounts are exact rationals ([Q]).  A division is partial (a
      zero divisor raises); the rounding of [decimal] to 28 significant
      digits is not modelled, and neither are [NaN] and infinities.
    - [time.time()] is a rational number of seconds, a [datetime] is an
      integer number of microseconds.  Every reading of a clock is an input.
    - An exception is represented by its message; [result A] is a value or
      a raised exception.  Only [Exception]s are considered (no task
      cancellation, no interpreter exit).
    - The collaborators (venue HTTP endpoints, RPC node, bundle relay,
      SQLite file) are inputs as well: a record holds, per call site, what
      the collaborator answers, and the calls made are logged in a trace.
    - A function is modelled for one call at a time; [asyncio] locks only
      order whole calls and do not appear. *)

From Stdlib Require Import ZArith QArith Qabs String DecimalString Bool List Sorted Lia.
Import ListNotations.
Local Open Scope string_scope.
Local Open Scope list_scope.
Local Open Scope Z_scope.

(** ** Exceptions and results *)

Definition exn := string.

Inductive result (A : Type) : Type :=
| Ok (a : A)
| Raise (e : exn).
Arguments Ok {A} a.
Arguments Raise {A} e.

Definition rbind {A B} (r : result A) (k : A -> result B) : result B :=
  match r with
  | Ok a => k a
  | Raise e => Raise e
  end.

Notation "x <- r ;; k" := (rbind r (fun x => k))
  (at level 61, r at next level, right associativity).

(** ** Decimal comparisons *)

Definition Qltb (x y : Q) : bool := negb (Qle_bool y x).
Definition Qleb (x y : Q) : bool := Qle_bool x y.

(** ** [src/modules/price_cache.py] *)

Module price_cache.

Section WithValues.

(** The cached values ([Any] in the source). *)
Variable V : Type.

(** An [OrderedDict[str, Tuple[Any, float]]]: insertion-ordered entries,
    the front of the list is the oldest. *)
Definition odict := list (string * (V * Q)).

Record PriceCache : Type := mkPriceCache {
  ttl : Z;
  max_size : Z;
  cache : odict;
  hits : nat;
  misses : nat
}.

Definition od_lookup (k : string) (d : odict) : option (V * Q) :=
  match find (fun kv => String.eqb k (fst kv)) d with
  | Some kv => Some (snd kv)
  | None => None
  end.

(** [del d[k]] *)
Definition od_delete (k : string) (d : odict) : odict :=
  filter (fun kv => negb (String.eqb k (fst kv))) d.

(** [d[k] = e]: an existing key keeps its position. *)
Fixpoint od_setitem (k : string) (e : V * Q) (d : odict) : odict :=
  match d with
  | [] => [(k, e)]
  | kv :: t => if String.eqb k (fst kv) then (k, e) :: t
               else kv :: od_setitem k e t
  end.

(** [d.move_to_end(k)]; a missing key raises [KeyError]. *)
Definition od_move_to_end (k : string) (d : odict) : result odict :=
  match od_lookup k d with
  | Some e => Ok (od_delete k d ++ [(k, e)])
  | None => Raise "KeyError"
  end.

(** [d.popitem(last=False)]; an empty dictionary raises [KeyError]. *)
Definition od_popitem_first (d : odict) : result odict :=
  match d with
  | [] => Raise "KeyError"
  | _ :: t => Ok t
  end.

Definition with_cache (c : PriceCache) (d : odict) : PriceCache :=
  mkPriceCache (ttl c) (max_size c) d (hits c) (misses c).

(** [PriceCache.get]; [now] is the reading of [time.time()]. *)
Definition get (c : PriceCache) (key : string) (now : Q)
  : result (option V * PriceCache) :=
  let miss d := Ok (None, mkPriceCache (ttl c) (max_size c) d (hits c) (S (misses c))) in
  match od_lookup key (cache c) with
  | Some (value, timestamp) =>
      if Qltb (now - timestamp) (inject_Z (ttl c)) then
        d <- od_move_to_end key (cache c) ;;
        Ok (Some value, mkPriceCache (ttl c) (max_size c) d (S (hits c)) (misses c))
      else miss (od_delete key (cache c))
  | None => miss (cache c)
  end.

(** The loop [while len(self.cache) >= self.max_size: popitem(last=False)].
    It recurses on the dictionary it shortens. *)
Fixpoint evict (max : Z) (d : odict) : result odict :=
  if Z.of_nat (length d) <? max then Ok d
  else match d with
       | [] => od_popitem_first []
       | _ :: t => evict max t
       end.

(** [PriceCache.set] *)
Definition set (c : PriceCache) (key : string) (value : V) (now : Q)
  : result PriceCache :=
  d <- evict (max_size c) (cache c) ;;
  d' <- od_move_to_end key (od_setitem key (value, now) d) ;;
  Ok (with_cache c d').

(** [PriceCache.clear_expired] *)
Definition expired_keys (c : PriceCache) (current_time : Q) : list string :=
  map fst
    (filter (fun kv => Qleb (inject_Z (ttl c)) (current_time - snd (snd kv)))
            (cache c)).

Definition clear_expired (c : PriceCache) (current_time : Q) : nat * PriceCache :=
  let ks := expired_keys c current_time in
  (length ks, with_cache c (fold_left (fun d k => od_delete k d) ks (cache c))).

(** [PriceCache.clear] *)
Definition clear (c : PriceCache) : PriceCache :=
  mkPriceCache (ttl c) (max_size c) [] 0 0.

(** The capacity invariant. *)
Definition within_capacity (c : PriceCache) : Prop :=
  Z.of_nat (length (cache c)) <= max_size c.

End WithValues.

Arguments mkPriceCache {V}.
Arguments ttl {V}.
Arguments max_size {V}.
Arguments cache {V}.
Arguments hits {V}.
Arguments misses {V}.
Arguments od_lookup {V}.
Arguments od_delete {V}.
Arguments od_setitem {V}.
Arguments od_move_to_end {V}.
Arguments od_popitem_first {V}.
Arguments with_cache {V}.
Arguments get {V}.
Arguments evict {V}.
Arguments set {V}.
Arguments expired_keys {V}.
Arguments clear_expired {V}.
Arguments clear {V}.
Arguments within_capacity {V}.

End price_cache.

(** ** [src/arbitrage_bot.py] *)

Module arbitrage_bot.

(** *** Decimal helpers *)

(** [a / b] on [Decimal]: a zero divisor raises ([DivisionByZero], or
    [InvalidOperation] for [0 / 0]). *)
Definition decimal_div (a b : Q) : result Q :=
  if Qeq_bool b 0 then Raise "decimal.DivisionByZero" else Ok (a / b)%Q.

(** [int(d)]: truncation towards zero. *)
Definition decimal_int (d : Q) : Z := Z.quot (Qnum d) (Zpos (Qden d)).

Definition Qmin (a b : Q) : Q := if Qltb b a then b else a.

(** [str(n)] for an integer. *)
Definition str_of_int (n : Z) : string := NilZero.string_of_int (Z.to_int n).

(** *** Data model *)

Inductive DEX : Type := JUPITER | RAYDIUM | ORCA | METEORA.

Definition DEX_value (d : DEX) : string :=
  match d with
  | JUPITER => "jupiter"
  | RAYDIUM => "raydium"
  | ORCA => "orca"
  | METEORA => "meteora"
  end.

Definition DEX_eqb (a b : DEX) : bool :=
  match a, b with
  | JUPITER, JUPITER | RAYDIUM, RAYDIUM | ORCA, ORCA | METEORA, METEORA => true
  | _, _ => false
  end.

Record Token : Type := mkToken {
  symbol : string;
  mint : string;
  decimals : Z;
  min_liquidity : Q
}.

Record ArbitrageOpportunity : Type := mkArbitrageOpportunity {
  id : string;
  token : Token;
  buy_dex : DEX;
  sell_dex : DEX;
  buy_price : Q;
  sell_price : Q;
  size_usd : Q;
  expected_profit : Q;
  price_impact : Q;
  timestamp : Z;
  expires_at : Z
}.

(** [ArbitrageOpportunity.is_valid]; [utcnow] is the reading of
    [datetime.utcnow()]. *)
Definition is_valid (utcnow : Z) (o : ArbitrageOpportunity) : bool :=
  utcnow <? expires_at o.

Record TradeResult : Type := mkTradeResult {
  opportunity_id : string;
  success : bool;
  buy_tx : option string;
  sell_tx : option string;
  actual_profit : option Q;
  error : option string;
  gas_used : Q;
  execution_time : Q
}.

(** A serialized transaction, as the collaborators hand it around. *)
Definition Tx := string.

(** *** Calls to the outside world *)

Inductive limiter : Type := LimJupiter | LimRaydium | LimRpc.

Inductive event : Type :=
| RateLimit (l : limiter)
| QuoteFetch (d : DEX) (mint_ : string)
| RpcGetBalance
| BuildSwap (input_mint output_mint : string) (amount slippage_bps fee : Z)
| RpcBuildTransaction
| SendTransaction (tx : Tx)
| JitoBundle (buy sell : Tx)
| DbSaveOpportunity (o : ArbitrageOpportunity) (stored : bool)
| DbSaveTrade (o : ArbitrageOpportunity) (r : TradeResult) (stored : bool).

(** The calls that leave the process over the network (venue HTTP, RPC
    node, bundle relay); the rate limiter and the SQLite file do not.  A
    database event records whether the call returned ([stored]) or raised. *)
Definition is_network (e : event) : bool :=
  match e with
  | QuoteFetch _ _ | RpcGetBalance | BuildSwap _ _ _ _ _
  | RpcBuildTransaction | SendTransaction _ | JitoBundle _ _ => true
  | RateLimit _ | DbSaveOpportunity _ _ | DbSaveTrade _ _ _ => false
  end.



(** Code that logs its calls and may raise: the trace of the calls made so
    far, and a value or the exception that ended it. *)
Definition io (A : Type) : Type := (list event * result A)%type.

Definition ret {A} (a : A) : io A := ([], Ok a).
Definition raise {A} (e : exn) : io A := ([], Raise e).
Definition lift {A} (r : result A) : io A := ([], r).
Definition call {A} (ev : event) (r : result A) : io A := ([ev], r).
Definition emit (ev : event) : io unit := ([ev], Ok tt).

Definition bind {A B} (m : io A) (k : A -> io B) : io B :=
  match m with
  | (t, Ok a) => let (t', r) := k a in (t ++ t', r)
  | (t, Raise e) => (t, Raise e)
  end.

Notation "x <~ m ;; k" := (bind m (fun x => k))
  (at level 61, m at next level, right associativity).
Notation "m ;;; k" := (bind m (fun _ => k))
  (at level 61, right associativity).

(** *** [PriceCache] of [arbitrage_bot.py]: a plain [dict] with a TTL *)

Record PriceCache : Type := mkPriceCache {
  cache : list (string * ((Q * Q) * Q));
  ttl : Z
}.

Definition dict_get {A} (k : string) (d : list (string * A)) : option A :=
  match find (fun kv => String.eqb k (fst kv)) d with
  | Some kv => Some (snd kv)
  | None => None
  end.

Definition dict_del {A} (k : string) (d : list (string * A)) : list (string * A) :=
  filter (fun kv => negb (String.eqb k (fst kv))) d.

Fixpoint dict_set {A} (k : string) (a : A) (d : list (string * A)) : list (string * A) :=
  match d with
  | [] => [(k, a)]
  | kv :: t => if String.eqb k (fst kv) then (k, a) :: t else kv :: dict_set k a t
  end.

Definition cache_get (c : PriceCache) (key : string) (now : Q)
  : option (Q * Q) * PriceCache :=
  match dict_get key (cache c) with
  | Some (value, timestamp_) =>
      if Qltb (now - timestamp_) (inject_Z (ttl c)) then (Some value, c)
      else (None, mkPriceCache (dict_del key (cache c)) (ttl c))
  | None => (None, c)
  end.

Definition cache_set (c : PriceCache) (key : string) (value : Q * Q) (now : Q)
  : PriceCache :=
  mkPriceCache (dict_set key (value, now) (cache c)) (ttl c).

(** *** The bot *)

(** The fields of [ProductionArbitrageBot] that the scanner and the
    executor read.  [use_jito] is read by [execute_arbitrage] as
    [self.use_jito]; the lines that assign it sit in [RateLimiter.__init__]
    in this file. *)
Record ProductionArbitrageBot : Type := mkBot {
  usdc_mint : string;
  tokens : list Token;
  price_cache : PriceCache;
  min_profit_usd : Q;
  max_position_size : Q;
  max_price_impact : Q;
  priority_fee : Z;
  max_daily_loss : Q;
  daily_loss : Q;
  use_jito : bool
}.

Definition with_daily_loss (b : ProductionArbitrageBot) (l : Q) :=
  mkBot (usdc_mint b) (tokens b) (price_cache b) (min_profit_usd b)
        (max_position_size b) (max_price_impact b) (priority_fee b)
        (max_daily_loss b) l (use_jito b).

(** *** Venue responses *)

(** A JSON field that the code converts with [Decimal(...)]. *)
Inductive JField : Type := Missing | Malformed | Num (q : Q).

(** [Decimal(d['k'])] *)
Definition decimal_of_required (f : JField) : result Q :=
  match f with
  | Missing => Raise "KeyError"
  | Malformed => Raise "decimal.InvalidOperation"
  | Num q => Ok q
  end.

(** [Decimal(d.get('k', 0))] *)
Definition decimal_of_default0 (f : JField) : result Q :=
  match f with
  | Missing => Ok 0%Q
  | Malformed => Raise "decimal.InvalidOperation"
  | Num q => Ok q
  end.

(** What [session.get(...)] gives: the request fails (timeout, connection
    error), or a response with a status whose [json()] may itself fail. *)
Inductive http (A : Type) : Type :=
| HttpFailure (e : exn)
| HttpResponse (status : Z) (json : result A).
Arguments HttpFailure {A} e.
Arguments HttpResponse {A} status json.

(** Jupiter's quote: [outAmount] and the [outAmount] of each [routePlan]
    entry (an absent [routePlan] is the empty list). *)
Record JupiterQuote : Type := mkJupiterQuote {
  outAmount : JField;
  routePlan : list JField
}.

(** One entry of DexScreener's [pairs]. *)
Record DexPair : Type := mkDexPair {
  dexId : option string;
  quoteToken_symbol : option string;
  priceUsd : JField;
  liquidity_usd : JField
}.

(** The two readings of [time.time()] a quote operation makes: in
    [PriceCache.get] and in [PriceCache.set]. *)
Record QuoteClock : Type := mkQuoteClock {
  t_get : Q;
  t_set : Q
}.

(** *** [get_jupiter_price] *)

Definition sum_route_amounts (routes : list JField) : result Q :=
  fold_left (fun acc r => a <- acc ;; x <- decimal_of_default0 r ;; Ok (a + x)%Q)
            routes (Ok 0%Q).

Definition jupiter_parse (data : JupiterQuote) : result (Q * Q) :=
  output_amount <- decimal_of_required (outAmount data) ;;
  let price := (output_amount / inject_Z 1000000)%Q in
  s <- sum_route_amounts (routePlan data) ;;
  let total_liquidity := (s * inject_Z 100)%Q in
  Ok (price, total_liquidity).

Definition get_jupiter_price (c : PriceCache) (token_ : Token) (clk : QuoteClock)
  (resp : http JupiterQuote) : option (Q * Q) * PriceCache * list event :=
  let cache_key := String.append "jupiter_" (mint token_) in
  match cache_get c cache_key (t_get clk) with
  | (Some cached, c1) => (Some cached, c1, [])
  | (None, c1) =>
      let tr := [RateLimit LimJupiter; QuoteFetch JUPITER (mint token_)] in
      match resp with
      | HttpFailure _ => (None, c1, tr)
      | HttpResponse status body =>
          if negb (status =? 200) then (None, c1, tr)
          else match (data <- body ;; jupiter_parse data) with
               | Ok result_ => (Some result_, cache_set c1 cache_key result_ (t_set clk), tr)
               | Raise _ => (None, c1, tr)
               end
      end
  end.

(** *** [get_raydium_price] *)

Definition is_raydium_usd_pair (p : DexPair) : bool :=
  match dexId p with
  | Some d => String.eqb d "raydium"
  | None => false
  end &&
  match quoteToken_symbol p with
  | Some s => String.eqb s "USDC" || String.eqb s "USDT"
  | None => false
  end.

(** [max(pairs, key=...)]: the first pair of greatest key. *)
Fixpoint max_by_liquidity (best : DexPair) (best_key : Q) (rest : list DexPair)
  : result DexPair :=
  match rest with
  | [] => Ok best
  | p :: rest' =>
      k <- decimal_of_default0 (liquidity_usd p) ;;
      if Qltb best_key k then max_by_liquidity p k rest'
      else max_by_liquidity best best_key rest'
  end.

Definition raydium_parse (token_ : Token) (pairs : list DexPair)
  : result (option (Q * Q)) :=
  match filter is_raydium_usd_pair pairs with
  | [] => Ok None
  | p :: rest =>
      k <- decimal_of_default0 (liquidity_usd p) ;;
      best_pair <- max_by_liquidity p k rest ;;
      price <- decimal_of_default0 (priceUsd best_pair) ;;
      liquidity <- decimal_of_default0 (liquidity_usd best_pair) ;;
      if Qltb 0 price && Qltb (min_liquidity token_) liquidity
      then Ok (Some (price, liquidity))
      else Ok None
  end.

Definition get_raydium_price (c : PriceCache) (token_ : Token) (clk : QuoteClock)
  (resp : http (list DexPair)) : option (Q * Q) * PriceCache * list event :=
  let cache_key := String.append "raydium_" (mint token_) in
  match cache_get c cache_key (t_get clk) with
  | (Some cached, c1) => (Some cached, c1, [])
  | (None, c1) =>
      let tr := [RateLimit LimRaydium; QuoteFetch RAYDIUM (mint token_)] in
      match resp with
      | HttpFailure _ => (None, c1, tr)
      | HttpResponse status body =>
          if negb (status =? 200) then (None, c1, tr)
          else match (pairs <- body ;; raydium_parse token_ pairs) with
               | Ok (Some result_) =>
                   (Some result_, cache_set c1 cache_key result_ (t_set clk), tr)
               | Ok None => (None, c1, tr)
               | Raise _ => (None, c1, tr)
               end
      end
  end.

(** *** [calculate_price_impact] *)

Definition calculate_price_impact (token_ : Token) (dex : DEX) (size_usd_ : Q) : Q :=
  let base_impact := (1 # 1000)%Q in
  if Qltb (inject_Z 10000) size_usd_
  then (base_impact * (size_usd_ / inject_Z 10000))%Q
  else base_impact.

(** *** [find_arbitrage_opportunities] *)

(** The ladder [[100, 500, 1000, 2000, 5000]]. *)
Definition trade_sizes : list Z := [100; 500; 1000; 2000; 5000].

Definition total_impact_for (token_ : Token) (buy_dex_ sell_dex_ : DEX) (size_usd_ : Q) : Q :=
  let buy_impact := calculate_price_impact token_ buy_dex_ size_usd_ in
  let sell_impact := calculate_price_impact token_ sell_dex_ size_usd_ in
  (buy_impact + sell_impact)%Q.

Definition net_profit_for (token_ : Token) (buy_dex_ sell_dex_ : DEX)
  (buy_price_ sell_price_ size_usd_ : Q) : result Q :=
  let buy_impact := calculate_price_impact token_ buy_dex_ size_usd_ in
  let sell_impact := calculate_price_impact token_ sell_dex_ size_usd_ in
  let effective_buy_price := (buy_price_ * (1 + buy_impact))%Q in
  let effective_sell_price := (sell_price_ * (1 - sell_impact))%Q in
  tokens_ <- decimal_div size_usd_ effective_buy_price ;;
  let revenue := (tokens_ * effective_sell_price)%Q in
  let swap_fees := (size_usd_ * (3 # 1000) * 2)%Q in
  let gas_fees := (1 # 100)%Q in
  Ok (revenue - size_usd_ - swap_fees - gas_fees)%Q.

(** The loop [for size_usd in [100, 500, 1000, 2000, 5000]] up to the
    creation of the opportunity: [Ok None] when the loop ends or breaks on
    [size_usd > max_size] without a candidate, [Ok (Some (size_usd,
    net_profit, total_impact))] at the candidate that is turned into the
    opportunity (the loop breaks right after). *)
Fixpoint size_loop (b : ProductionArbitrageBot) (token_ : Token)
  (buy_dex_ sell_dex_ : DEX) (buy_price_ sell_price_ max_size : Q)
  (sizes : list Z) : result (option (Q * Q * Q)) :=
  match sizes with
  | [] => Ok None
  | s :: rest =>
      let size_usd_ := inject_Z s in
      if Qltb max_size size_usd_ then Ok None
      else
        let total_impact := total_impact_for token_ buy_dex_ sell_dex_ size_usd_ in
        if Qltb (max_price_impact b) total_impact
        then size_loop b token_ buy_dex_ sell_dex_ buy_price_ sell_price_ max_size rest
        else
          net_profit <- net_profit_for token_ buy_dex_ sell_dex_ buy_price_ sell_price_ size_usd_ ;;
          if Qleb (min_profit_usd b) net_profit
          then Ok (Some (size_usd_, net_profit, total_impact))
          else size_loop b token_ buy_dex_ sell_dex_ buy_price_ sell_price_ max_size rest
  end.

(** What the outside world answers while one token is scanned. *)
Record ScanEnv : Type := mkScanEnv {
  jupiter_clock : QuoteClock;
  jupiter_response : http JupiterQuote;
  raydium_clock : QuoteClock;
  raydium_response : http (list DexPair);
  time_time : Q;
  utcnow_timestamp : Z;
  utcnow_expires : Z;
  save_opportunity : ArbitrageOpportunity -> result unit
}.

Record ScanState : Type := mkScanState {
  s_cache : PriceCache;
  opportunities : list ArbitrageOpportunity;
  s_trace : list event
}.

Definition is_ok {A} (r : result A) : bool :=
  match r with Ok _ => true | Raise _ => false end.

(** Buy on the cheaper venue. *)
Definition direction (jupiter_data raydium_data : Q * Q) : DEX * DEX * Q * Q * Q :=
  let (jupiter_price, jupiter_liquidity) := jupiter_data in
  let (raydium_price, raydium_liquidity) := raydium_data in
  if Qltb jupiter_price raydium_price
  then (JUPITER, RAYDIUM, jupiter_price, raydium_price,
        Qmin jupiter_liquidity raydium_liquidity)
  else (RAYDIUM, JUPITER, raydium_price, jupiter_price,
        Qmin raydium_liquidity jupiter_liquidity).

(** One iteration of [for token in self.tokens], with its
    [try ... except Exception: continue]. *)
Definition scan_token (b : ProductionArbitrageBot) (env : ScanEnv)
  (st : ScanState) (token_ : Token) : ScanState :=
  let '(jupiter_data, c1, tr1) :=
    get_jupiter_price (s_cache st) token_ (jupiter_clock env) (jupiter_response env) in
  let '(raydium_data, c2, tr2) :=
    get_raydium_price c1 token_ (raydium_clock env) (raydium_response env) in
  let st2 := mkScanState c2 (opportunities st) (s_trace st ++ tr1 ++ tr2) in
  match jupiter_data, raydium_data with
  | Some jd, Some rd =>
      let price_diff := Qabs (fst jd - fst rd) in
      match decimal_div price_diff (Qmin (fst jd) (fst rd)) with
      | Raise _ => st2
      | Ok ratio =>
          let price_diff_pct := (ratio * inject_Z 100)%Q in
          if Qltb price_diff_pct (1 # 2) then st2
          else
            let '(buy_dex_, sell_dex_, buy_price_, sell_price_, available_liquidity) :=
              direction jd rd in
            let max_size :=
              Qmin (max_position_size b) (available_liquidity * (1 # 10))%Q in
            match size_loop b token_ buy_dex_ sell_dex_ buy_price_ sell_price_
                            max_size trade_sizes with
            | Ok (Some (size_usd_, net_profit, total_impact)) =>
                let opportunity :=
                  mkArbitrageOpportunity
                    (String.append (symbol token_)
                       (String.append "_"
                          (str_of_int (decimal_int (time_time env * inject_Z 1000000)%Q))))
                    token_ buy_dex_ sell_dex_ buy_price_ sell_price_ size_usd_
                    net_profit total_impact
                    (utcnow_timestamp env) (utcnow_expires env + 10000000) in
                mkScanState c2 (opportunities st ++ [opportunity])
                  (s_trace st ++ tr1 ++ tr2 ++
                   [DbSaveOpportunity opportunity
                      (is_ok (save_opportunity env opportunity))])
            | Ok None => st2
            | Raise _ => st2
            end
      end
  | _, _ => st2
  end.

(** The loop over [self.tokens]; [envs i] answers during the [i]-th
    iteration. *)
Fixpoint scan_tokens (b : ProductionArbitrageBot) (envs : nat -> ScanEnv)
  (i : nat) (ts : list Token) (st : ScanState) : ScanState :=
  match ts with
  | [] => st
  | t :: rest => scan_tokens b envs (S i) rest (scan_token b (envs i) st t)
  end.

Definition find_arbitrage_opportunities (b : ProductionArbitrageBot)
  (envs : nat -> ScanEnv) : ScanState :=
  scan_tokens b envs 0%nat (tokens b) (mkScanState (price_cache b) [] []).

(** The opportunities handed to [save_opportunity], in call order. *)
Definition save_calls (tr : list event) : list ArbitrageOpportunity :=
  flat_map (fun e => match e with DbSaveOpportunity o _ => [o] | _ => [] end) tr.

(** *** [execute_arbitrage] *)

(** What the outside world answers during one call, one field per call
    site.  [build_buy] and [build_sell] stand for
    [TransactionBuilder.build_jupiter_swap], whose own [try/except] turns
    every failure into [None].  [should_use_bundle], [calculate_optimal_tip]
    and [execute_arbitrage_with_jito] are imported from a module that is
    not part of the sources; they are taken as they answer. *)
Record ExecEnv : Type := mkExecEnv {
  utcnow : Z;
  start_time : Q;
  end_time : Q;
  get_balance : result Z;
  should_use_bundle : Q -> result bool;
  build_buy : string -> string -> Z -> Z -> Z -> option Tx;
  sign_buy : Tx -> result unit;
  send_buy : Tx -> result string;
  build_sell : string -> string -> Z -> Z -> Z -> option Tx;
  sign_sell : Tx -> result unit;
  send_sell : Tx -> result string;
  calculate_optimal_tip : Q -> result Z;
  add_jito_tip_instruction : Tx -> Z -> result Tx;
  build_versioned_transaction : Tx -> result Tx;
  execute_arbitrage_with_jito : Tx -> Tx -> Q -> result (bool * string);
  save_trade : ArbitrageOpportunity -> TradeResult -> result unit
}.

(** One leg's transaction: built through Jupiter, [None] for any other
    venue. *)
Definition build_leg (build : string -> string -> Z -> Z -> Z -> option Tx)
  (dex : DEX) (input_mint output_mint : string) (amount slippage_bps fee : Z)
  : io (option Tx) :=
  if DEX_eqb dex JUPITER
  then call (BuildSwap input_mint output_mint amount slippage_bps fee)
            (Ok (build input_mint output_mint amount slippage_bps fee))
  else ret None.

(** [if not tx: raise Exception(msg)] *)
Definition require_tx (tx : option Tx) (msg : exn) : io Tx :=
  match tx with
  | Some t => ret t
  | None => raise msg
  end.

(** [int(opportunity.size_usd * Decimal('1000000'))] *)
Definition buy_amount_of (o : ArbitrageOpportunity) : Z :=
  decimal_int (size_usd o * inject_Z 1000000)%Q.

(** [tokens_received = size_usd / buy_price] and
    [int(tokens_received * Decimal(10 ** decimals))] *)
Definition sell_amount_of (o : ArbitrageOpportunity) : result Z :=
  tokens_received <- decimal_div (size_usd o) (buy_price o) ;;
  Ok (decimal_int (tokens_received * (inject_Z 10) ^ (decimals (token o)))%Q).

(** The branch [if should_use_jito].  The tip is a number of lamports and
    [gas_used = Decimal(str(tip_amount / 1e9))] is taken exactly. *)
Definition jito_path (b : ProductionArbitrageBot) (env : ExecEnv)
  (o : ArbitrageOpportunity) : io TradeResult :=
  let buy_amount := buy_amount_of o in
  obuy <~ build_leg (build_buy env) (buy_dex o) (usdc_mint b) (mint (token o))
                    buy_amount 100 0 ;;
  buy_tx_ <~ require_tx obuy "Failed to build buy transaction" ;;
  sell_amount <~ lift (sell_amount_of o) ;;
  osell <~ build_leg (build_sell env) (sell_dex o) (mint (token o)) (usdc_mint b)
                     sell_amount 100 0 ;;
  sell_tx_ <~ require_tx osell "Failed to build sell transaction" ;;
  tip_amount <~ lift (calculate_optimal_tip env (expected_profit o)) ;;
  sell_tx_instructions <~ lift (add_jito_tip_instruction env sell_tx_ tip_amount) ;;
  sell_tx' <~ call RpcBuildTransaction
                   (build_versioned_transaction env sell_tx_instructions) ;;
  outcome <~ call (JitoBundle buy_tx_ sell_tx')
                  (execute_arbitrage_with_jito env buy_tx_ sell_tx' (expected_profit o)) ;;
  let (success_, bundle_id) := outcome : bool * string in
  if success_ then
    let gas_used_ := (inject_Z tip_amount / inject_Z 1000000000)%Q in
    let actual_profit_ := (expected_profit o - gas_used_)%Q in
    ret (mkTradeResult (id o) true
           (Some (String.append "jito_bundle_" bundle_id))
           (Some (String.append "jito_bundle_" bundle_id))
           (Some actual_profit_) None gas_used_
           (end_time env - start_time env)%Q)
  else raise (String.append "Jito bundle execution failed: " bundle_id).

(** The branch [else]: buy, then sell, one transaction each. *)
Definition sequential_path (b : ProductionArbitrageBot) (env : ExecEnv)
  (o : ArbitrageOpportunity) : io TradeResult :=
  let buy_amount := buy_amount_of o in
  obuy <~ build_leg (build_buy env) (buy_dex o) (usdc_mint b) (mint (token o))
                    buy_amount 100 (priority_fee b) ;;
  buy_tx_ <~ require_tx obuy "Failed to build buy transaction" ;;
  lift (sign_buy env buy_tx_) ;;;
  emit (RateLimit LimRpc) ;;;
  buy_tx_id <~ call (SendTransaction buy_tx_) (send_buy env buy_tx_) ;;
  sell_amount <~ lift (sell_amount_of o) ;;
  osell <~ build_leg (build_sell env) (sell_dex o) (mint (token o)) (usdc_mint b)
                     sell_amount 100 (priority_fee b) ;;
  sell_tx_ <~ require_tx osell "Failed to build sell transaction" ;;
  lift (sign_sell env sell_tx_) ;;;
  emit (RateLimit LimRpc) ;;;
  sell_tx_id <~ call (SendTransaction sell_tx_) (send_sell env sell_tx_) ;;
  let gas_used_ := (1 # 100)%Q in
  let actual_profit_ := (expected_profit o - gas_used_)%Q in
  ret (mkTradeResult (id o) true (Some buy_tx_id) (Some sell_tx_id)
         (Some actual_profit_) None gas_used_
         (end_time env - start_time env)%Q).

(** The body of the [try] block.  The balance is an integer number of
    lamports, for which [value / 1e9 < 0.1] is [value < 10^8]. *)
Definition execute_body (b : ProductionArbitrageBot) (env : ExecEnv)
  (o : ArbitrageOpportunity) : io TradeResult :=
  emit (RateLimit LimRpc) ;;;
  lamports <~ call RpcGetBalance (get_balance env) ;;
  (if lamports <? 100000000
   then raise "Insufficient SOL balance for fees" else ret tt) ;;;
  should_use_jito <~
    (if use_jito b then lift (should_use_bundle env (expected_profit o))
     else ret false) ;;
  if should_use_jito then jito_path b env o else sequential_path b env o.

(** The result of one call: the value returned or the exception that
    left the call, the bot afterwards, and the calls made. *)
Record Run : Type := mkRun {
  returned : result TradeResult;
  bot_after : ProductionArbitrageBot;
  trace : list event
}.

Definition expired_result (o : ArbitrageOpportunity) : TradeResult :=
  mkTradeResult (id o) false None None None (Some "Opportunity expired") 0%Q 0%Q.

Definition risk_limit_result (o : ArbitrageOpportunity) : TradeResult :=
  mkTradeResult (id o) false None None None (Some "Daily loss limit reached") 0%Q 0%Q.

(** The [TradeResult] built by [except Exception as e]. *)
Definition failed_result (env : ExecEnv) (o : ArbitrageOpportunity) (e : exn)
  : TradeResult :=
  mkTradeResult (id o) false None None None (Some e) (5 # 1000)%Q
    (end_time env - start_time env)%Q.

Definition execute_arbitrage (b : ProductionArbitrageBot) (env : ExecEnv)
  (o : ArbitrageOpportunity) : Run :=
  if negb (is_valid (utcnow env) o) then mkRun (Ok (expired_result o)) b []
  else if Qleb (max_daily_loss b) (daily_loss b)
  then mkRun (Ok (risk_limit_result o)) b []
  else
    let (tr, r) := execute_body b env o in
    let (result_, b') :=
      match r with
      | Ok res => (res, b)
      | Raise e =>
          (failed_result env o e, with_daily_loss b (daily_loss b + inject_Z 10)%Q)
      end in
    match save_trade env o result_ with
    | Ok _ => mkRun (Ok result_) b' (tr ++ [DbSaveTrade o result_ true])
    | Raise e => mkRun (Raise e) b' (tr ++ [DbSaveTrade o result_ false])
    end.

(** A call that gets past the expiry and risk guards. *)
Definition passes_guards (b : ProductionArbitrageBot) (env : ExecEnv)
  (o : ArbitrageOpportunity) : Prop :=
  is_valid (utcnow env) o = true /\ Qleb (max_daily_loss b) (daily_loss b) = false.

(** The [TradeResult] such a call builds once it is past the two guards. *)
Definition built_result (b : ProductionArbitrageBot) (env : ExecEnv)
  (o : ArbitrageOpportunity) : TradeResult :=
  match snd (execute_body b env o) with
  | Ok res => res
  | Raise e => failed_result env o e
  end.


(** *** Vocabulary for the statements about the scanner *)

(** [l1] is [l2] with some entries left out, order kept. *)
Inductive subseq {A : Type} : list A -> list A -> Prop :=
| subseq_nil : subseq [] []
| subseq_skip (x : A) (l1 l2 : list A) : subseq l1 l2 -> subseq l1 (x :: l2)
| subseq_take (x : A) (l1 l2 : list A) : subseq l1 l2 -> subseq (x :: l1) (x :: l2).

(** The sizing loop passes over a candidate: its combined impact exceeds
    the cap, or its net profit is below [min_profit_usd]. *)
Definition passed_over (b : ProductionArbitrageBot) (token_ : Token)
  (buy_dex_ sell_dex_ : DEX) (buy_price_ sell_price_ size_usd_ : Q) : Prop :=
  (max_price_impact b < total_impact_for token_ buy_dex_ sell_dex_ size_usd_)%Q \/
  exists net_profit,
    net_profit_for token_ buy_dex_ sell_dex_ buy_price_ sell_price_ size_usd_
    = Ok net_profit /\
    (net_profit < min_profit_usd b)%Q.

(** [(size_usd, net_profit, total_impact)] is the first candidate of the
    ladder [sizes] that the loop does not pass over: every earlier rung is
    within [max_size] and passed over, and this one is within [max_size],
    within the impact cap and at or above [min_profit_usd]. *)
Definition first_clearing_profit_floor (b : ProductionArbitrageBot) (token_ : Token)
  (buy_dex_ sell_dex_ : DEX) (buy_price_ sell_price_ max_size : Q) (sizes : list Z)
  (size_usd_ net_profit total_impact : Q) : Prop :=
  exists (pre : list Z) (x : Z) (post : list Z),
    sizes = pre ++ x :: post /\
    size_usd_ = inject_Z x /\
    Forall (fun y => (inject_Z y <= max_size)%Q /\
                     passed_over b token_ buy_dex_ sell_dex_ buy_price_ sell_price_
                                 (inject_Z y)) pre /\
    (inject_Z x <= max_size)%Q /\
    total_impact = total_impact_for token_ buy_dex_ sell_dex_ size_usd_ /\
    (total_impact <= max_price_impact b)%Q /\
    net_profit_for token_ buy_dex_ sell_dex_ buy_price_ sell_price_ size_usd_
    = Ok net_profit /\
    (min_profit_usd b <= net_profit)%Q.



(** How [scan_token] comes to create [o]: two quotes whose difference,
    relative to the lower price, is at least 0.5%; the direction chosen
    from them; and the sizing loop stopping at [o]'s size, profit and
    impact. *)
Definition discovered (b : ProductionArbitrageBot) (o : ArbitrageOpportunity) : Prop :=
  exists (jupiter_data raydium_data : Q * Q) (ratio available_liquidity : Q),
    decimal_div (Qabs (fst jupiter_data - fst raydium_data))
                (Qmin (fst jupiter_data) (fst raydium_data)) = Ok ratio /\
    Qltb (ratio * inject_Z 100) (1 # 2) = false /\
    direction jupiter_data raydium_data
    = (buy_dex o, sell_dex o, buy_price o, sell_price o, available_liquidity) /\
    size_loop b (token o) (buy_dex o) (sell_dex o) (buy_price o) (sell_price o)
              (Qmin (max_position_size b) (available_liquidity * (1 # 10)))
              trade_sizes
    = Ok (Some (size_usd o, expected_profit o, price_impact o)).

End arbitrage_bot.

From Stdlib Require Import Ascii Permutation Lqa.

(** ** [src/modules/price_cache.py], continued: statistics, keys and
    [MultiLevelCache] *)

Module price_cache_ext.
Import price_cache.

(** The dictionary has no two entries under one key. *)
Definition keys_unique {V} (c : PriceCache V) : Prop := NoDup (map fst (cache c)).

(** The entry is [ttl] old or older at [now]. *)
Definition stale {V} (ttl_ : Z) (now : Q) (kv : string * (V * Q)) : bool :=
  Qleb (inject_Z ttl_) (now - snd (snd kv)).



(** [PriceCache.make_key]: [':'.join(str(arg) for arg in args)], on the
    arguments already turned into strings. *)
Definition make_key (args : list string) : string := String.concat ":" args.

(** A string without the separator. *)
Fixpoint colon_free (s : string) : bool :=
  match s with
  | EmptyString => true
  | String c s' => negb (Ascii.eqb c ":"%char) && colon_free s'
  end.

(** [MultiLevelCache]: the four caches of [self.caches], each with the
    type of value it holds. *)
Record MultiLevelCache (D T P : Type) : Type := mkMultiLevelCache {
  price : PriceCache Q;
  quote : PriceCache D;
  token_info : PriceCache T;
  pool_info : PriceCache P
}.
Arguments mkMultiLevelCache {D T P}.
Arguments price {D T P}.
Arguments quote {D T P}.
Arguments token_info {D T P}.
Arguments pool_info {D T P}.

(** [MultiLevelCache.__init__] *)
Definition new_multi_level_cache (D T P : Type) : MultiLevelCache D T P :=
  mkMultiLevelCache (mkPriceCache 3 500 [] 0 0) (mkPriceCache 5 200 [] 0 0)
                    (mkPriceCache 300 100 [] 0 0) (mkPriceCache 60 200 [] 0 0).

Definition price_key (token_mint dex : string) : string :=
  make_key ["price"; token_mint; dex].

Definition quote_key (input_mint output_mint : string) (amount : Z) (dex : string)
  : string :=
  make_key ["quote"; input_mint; output_mint;
            NilZero.string_of_int (Z.to_int amount); dex].

Definition get_price {D T P} (m : MultiLevelCache D T P) (token_mint dex : string)
  (now : Q) : result (option Q * MultiLevelCache D T P) :=
  r <- get (price m) (price_key token_mint dex) now ;;
  Ok (fst r, mkMultiLevelCache (snd r) (quote m) (token_info m) (pool_info m)).

Definition set_price {D T P} (m : MultiLevelCache D T P) (token_mint dex : string)
  (price_ : Q) (now : Q) : result (MultiLevelCache D T P) :=
  c <- set (price m) (price_key token_mint dex) price_ now ;;
  Ok (mkMultiLevelCache c (quote m) (token_info m) (pool_info m)).

Definition get_quote {D T P} (m : MultiLevelCache D T P)
  (input_mint output_mint : string) (amount : Z) (dex : string) (now : Q)
  : result (option D * MultiLevelCache D T P) :=
  r <- get (quote m) (quote_key input_mint output_mint amount dex) now ;;
  Ok (fst r, mkMultiLevelCache (price m) (snd r) (token_info m) (pool_info m)).

Definition set_quote {D T P} (m : MultiLevelCache D T P)
  (input_mint output_mint : string) (amount : Z) (dex : string) (quote_ : D)
  (now : Q) : result (MultiLevelCache D T P) :=
  c <- set (quote m) (quote_key input_mint output_mint amount dex) quote_ now ;;
  Ok (mkMultiLevelCache (price m) c (token_info m) (pool_info m)).

(** [MultiLevelCache.clear_all_expired]; each cache reads the clock once. *)
Definition clear_all_expired {D T P} (m : MultiLevelCache D T P)
  (t_price t_quote t_token t_pool : Q) : nat * MultiLevelCache D T P :=
  let (n1, c1) := clear_expired (price m) t_price in
  let (n2, c2) := clear_expired (quote m) t_quote in
  let (n3, c3) := clear_expired (token_info m) t_token in
  let (n4, c4) := clear_expired (pool_info m) t_pool in
  ((0 + n1 + n2 + n3 + n4)%nat, mkMultiLevelCache c1 c2 c3 c4).

End price_cache_ext.

(** ** [src/arbitrage_bot.py], continued: [RateLimiter], the sweep of the
    price cache, the selection made by [monitor_loop] and the daily reset
    of [health_check] *)

Module arbitrage_bot_ext.
Import arbitrage_bot.

(** *** [RateLimiter] *)

(** [tokens] and the clock are floats in the source; they are taken
    exactly. *)
Record RateLimiter : Type := mkRateLimiter {
  calls_per_second : Q;
  burst : Q;
  tokens_ : Q;
  last_update : Q
}.

(** [RateLimiter.acquire] called at clock reading [now]: the time slept and
    the limiter afterwards.  A division by a zero rate raises. *)
Definition acquire (rl : RateLimiter) (now : Q) : result (Q * RateLimiter) :=
  let elapsed := (now - last_update rl)%Q in
  let refilled := Qmin (burst rl) (tokens_ rl + elapsed * calls_per_second rl)%Q in
  if Qltb refilled 1 then
    sleep_time <- decimal_div (1 - refilled)%Q (calls_per_second rl) ;;
    Ok (sleep_time, mkRateLimiter (calls_per_second rl) (burst rl) (1 - 1)%Q now)
  else
    Ok (0%Q, mkRateLimiter (calls_per_second rl) (burst rl) (refilled - 1)%Q now).

(** [n] calls of [acquire], all at clock reading [now]: the times slept. *)
Fixpoint acquire_repeatedly (rl : RateLimiter) (now : Q) (n : nat)
  : result (list Q * RateLimiter) :=
  match n with
  | O => Ok ([], rl)
  | S n' =>
      r <- acquire rl now ;;
      rest <- acquire_repeatedly (snd r) now n' ;;
      Ok (fst r :: fst rest, snd rest)
  end.

(** *** [PriceCache.clear_expired] of [arbitrage_bot.py] *)

Definition cache_clear_expired (c : PriceCache) (current_time : Q) : PriceCache :=
  let expired_keys :=
    map fst
      (filter (fun kv => Qleb (inject_Z (ttl c)) (current_time - snd (snd kv)))
              (cache c)) in
  mkPriceCache (fold_left (fun d k => dict_del k d) expired_keys (cache c)) (ttl c).

(** *** The selection of [monitor_loop] *)

(** [opportunities.sort(key=lambda x: x.expected_profit, reverse=True)]:
    a stable sort, so opportunities of equal profit keep their order.
    [insert_by_profit] puts an opportunity behind all those that are at
    least as profitable. *)
Fixpoint insert_by_profit (x : ArbitrageOpportunity) (l : list ArbitrageOpportunity)
  : list ArbitrageOpportunity :=
  match l with
  | [] => [x]
  | y :: t =>
      if Qleb (expected_profit x) (expected_profit y)
      then y :: insert_by_profit x t
      else x :: y :: t
  end.

Definition sort_by_profit (l : list ArbitrageOpportunity) : list ArbitrageOpportunity :=
  fold_left (fun acc x => insert_by_profit x acc) l [].

(** [x] is at least as profitable as [y]. *)
Definition at_least_as_profitable (x y : ArbitrageOpportunity) : Prop :=
  (expected_profit y <= expected_profit x)%Q.

(** The opportunities for which [monitor_loop] creates an
    [execute_arbitrage] task: of the three most profitable, those at or
    above [min_profit_usd]. *)
Definition selected_for_execution (b : ProductionArbitrageBot)
  (opps : list ArbitrageOpportunity) : list ArbitrageOpportunity :=
  filter (fun opp => Qleb (min_profit_usd b) (expected_profit opp))
         (firstn 3 (sort_by_profit opps)).

(** *** One round of [health_check] *)

(** The bot together with [self.last_loss_reset]. *)
Record Monitored : Type := mkMonitored {
  bot : ProductionArbitrageBot;
  last_loss_reset : Z
}.

(** What the collaborators answer during one round: the wait at the RPC
    rate limiter, the block height, the lamports of the balance response
    (each may raise instead), the two readings of [datetime.utcnow()] and
    the reading of [time.time()] in the sweep. *)
Record HealthEnv : Type := mkHealthEnv {
  rpc_acquire : result unit;
  get_block_height : result Z;
  health_get_balance : result Z;
  utcnow_compare : Z;
  utcnow_anchor : Z;
  sweep_time : Q
}.

(** [datetime.date()] as a day number, for a time in microseconds. *)
Definition date_of (t : Z) : Z := t / 86400000000.

Definition with_price_cache (b : ProductionArbitrageBot) (c : PriceCache) :=
  mkBot (usdc_mint b) (tokens b) c (min_profit_usd b) (max_position_size b)
        (max_price_impact b) (priority_fee b) (max_daily_loss b) (daily_loss b)
        (use_jito b).

(** The body of the [while] loop of [health_check], up to the sleep: the
    wait at the rate limiter, the two RPC queries, the reset of the daily
    loss on a new day, the sweep of the price cache.  An exception skips what follows it and is only
    logged. *)
Definition health_round (m : Monitored) (env : HealthEnv) : Monitored :=
  match rpc_acquire env, get_block_height env, health_get_balance env with
  | Ok _, Ok _, Ok _ =>
      let m1 :=
        if date_of (last_loss_reset m) <? date_of (utcnow_compare env)
        then mkMonitored (with_daily_loss (bot m) 0%Q) (utcnow_anchor env)
        else m in
      mkMonitored
        (with_price_cache (bot m1)
           (cache_clear_expired (price_cache (bot m1)) (sweep_time env)))
        (last_loss_reset m1)
  | _, _, _ => m
  end.

(** The shape of a result that a branch of the [try] block builds itself. *)
Definition completed (o : ArbitrageOpportunity) (res : TradeResult) : Prop :=
  opportunity_id res = id o /\ success res = true /\ error res = None /\
  actual_profit res <> None /\ buy_tx res <> None /\ sell_tx res <> None.

End arbitrage_bot_ext.

(** * Sample inputs *)

Module samples.

(** A full cache of capacity two. *)
Definition full_cache : price_cache.PriceCache nat :=
  price_cache.mkPriceCache 5 2 [("a", (1%nat, 0%Q)); ("b", (2%nat, 0%Q))] 0 0.

(** The configuration of the test suite ([TestConfig.create_test_config]). *)
Definition test_token : arbitrage_bot.Token :=
  arbitrage_bot.mkToken "TEST" "TestTokenMint11111111111111111111111111111" 9
    (inject_Z 1000).

Definition test_bot : arbitrage_bot.ProductionArbitrageBot :=
  arbitrage_bot.mkBot "EPjFWdd5AufqSSqeM2qN1xzybapC8G4wEGGkZwyTDt1v"
    [test_token] (arbitrage_bot.mkPriceCache [] 3)
    (inject_Z 5) (inject_Z 1000) (1 # 100)%Q 1000 (inject_Z 50) 0%Q false.

(** The same bot once its daily loss has reached the limit
    ([test_risk_management]). *)
Definition limited_bot : arbitrage_bot.ProductionArbitrageBot :=
  arbitrage_bot.with_daily_loss test_bot (arbitrage_bot.max_daily_loss test_bot).

(** An opportunity on Jupiter for both legs, valid until [expires_at =
    10 s], of the given size and expected profit. *)
Definition jupiter_opportunity (size_usd_ expected_profit_ : Q)
  : arbitrage_bot.ArbitrageOpportunity :=
  arbitrage_bot.mkArbitrageOpportunity "TEST_1" test_token
    arbitrage_bot.JUPITER arbitrage_bot.JUPITER 1%Q (102 # 100)%Q
    size_usd_ expected_profit_ (2 # 1000)%Q 0 10000000.

(** $1000 for an expected $5: a margin of 0.5%. *)
Definition thin_opportunity := jupiter_opportunity (inject_Z 1000) (inject_Z 5).


(** A world in which the venues, the chain and the relay answer; the
    clock reads [utcnow_], the balance query gives [balance] and saving a
    trade gives [saved]. *)
Definition answering_env (utcnow_ : Z) (balance : result Z) (saved : result unit)
  : arbitrage_bot.ExecEnv :=
  arbitrage_bot.mkExecEnv utcnow_ 0%Q 2%Q balance
    (fun _ => Ok false)
    (fun _ _ _ _ _ => Some "buy-transaction")
    (fun _ => Ok tt)
    (fun _ => Ok "buy-signature")
    (fun _ _ _ _ _ => Some "sell-transaction")
    (fun _ => Ok tt)
    (fun _ => Ok "sell-signature")
    (fun _ => Ok 10000)
    (fun tx _ => Ok tx)
    (fun tx => Ok tx)
    (fun _ _ _ => Ok (true, "bundle"))
    (fun _ _ => saved).

(** One second after discovery, 1 SOL in the wallet, the database works. *)
Definition env_ok := answering_env 1000000 (Ok 1000000000) (Ok tt).

(** Twenty seconds after discovery. *)
Definition env_late := answering_env 20000000 (Ok 1000000000) (Ok tt).


(** The database refuses the insert. *)
Definition env_db_locked :=
  answering_env 1000000 (Ok 1000000000) (Raise "database is locked").

(** The RPC node is unreachable ([test_rpc_failure_handling]). *)
Definition env_rpc_down :=
  answering_env 1000000 (Raise "RPC connection failed") (Ok tt).

(** Jupiter quotes 1.00 USDC for one token. *)
Definition jupiter_quote_1_00 : arbitrage_bot.http arbitrage_bot.JupiterQuote :=
  arbitrage_bot.HttpResponse 200
    (Ok (arbitrage_bot.mkJupiterQuote (arbitrage_bot.Num (inject_Z 1000000))
           [arbitrage_bot.Num (inject_Z 1000000)])).

(** DexScreener lists one Raydium/USDC pair at the given price, with
    $50000 of liquidity. *)
Definition raydium_pairs_at (price : Q)
  : arbitrage_bot.http (list arbitrage_bot.DexPair) :=
  arbitrage_bot.HttpResponse 200
    (Ok [arbitrage_bot.mkDexPair (Some "raydium") (Some "USDC")
           (arbitrage_bot.Num price) (arbitrage_bot.Num (inject_Z 50000))]).

(** Both venues answer, Raydium at [price]; the database works. *)
Definition scan_env (price : Q) : arbitrage_bot.ScanEnv :=
  arbitrage_bot.mkScanEnv
    (arbitrage_bot.mkQuoteClock 0%Q 0%Q) jupiter_quote_1_00
    (arbitrage_bot.mkQuoteClock 0%Q 0%Q) (raydium_pairs_at price)
    1%Q 1000000 1000000 (fun _ => Ok tt).

(** Raydium 2% above Jupiter ([test_find_opportunities]). *)
Definition two_percent_env (i : nat) : arbitrage_bot.ScanEnv := scan_env (102 # 100)%Q.

(** Raydium 0.1% above Jupiter ([test_no_opportunity_small_difference]). *)
Definition tenth_percent_env (i : nat) : arbitrage_bot.ScanEnv := scan_env (1001 # 1000)%Q.



(** A Jupiter quote whose single route carries no [outAmount] of its own:
    the liquidity estimate is zero. *)
Definition jupiter_quote_no_liquidity : arbitrage_bot.http arbitrage_bot.JupiterQuote :=
  arbitrage_bot.HttpResponse 200
    (Ok (arbitrage_bot.mkJupiterQuote (arbitrage_bot.Num (inject_Z 1000000))
           [arbitrage_bot.Missing])).

End samples.

(** * More sample inputs *)

Module samples_ext.
Import arbitrage_bot arbitrage_bot_ext samples.

(** What the scanner produces: buy on Jupiter, sell on Raydium. *)
Definition raydium_sale_opportunity : ArbitrageOpportunity :=
  mkArbitrageOpportunity "TEST_2" test_token JUPITER RAYDIUM 1%Q (102 # 100)%Q
    (inject_Z 500) (inject_Z 6) (2 # 1000)%Q 0 10000000.

(** A limiter of two calls per second with a full bucket of three. *)
Definition three_token_limiter : RateLimiter := mkRateLimiter 2 3 3 0.

End samples_ext.

(** * Facts *)

(** ** Decimal comparisons *)

Lemma Qltb_lt (x y : Q) : Qltb x y = true <-> (x < y)%Q.
Proof.
  unfold Qltb. rewrite negb_true_iff. split; intro H.
  - apply Qnot_le_lt. intro Hle. apply Qle_bool_iff in Hle. congruence.
  - destruct (Qle_bool y x) eqn:E; [|reflexivity].
    apply Qle_bool_iff in E. exfalso. exact (Qlt_not_le _ _ H E).
Qed.

Lemma Qltb_ge (x y : Q) : Qltb x y = false <-> (y <= x)%Q.
Proof.
  unfold Qltb. rewrite negb_false_iff. apply Qle_bool_iff.
Qed.

Lemma Qleb_le (x y : Q) : Qleb x y = true <-> (x <= y)%Q.
Proof. apply Qle_bool_iff. Qed.

Lemma Qleb_gt (x y : Q) : Qleb x y = false <-> (y < x)%Q.
Proof.
  unfold Qleb. split; intro H.
  - apply Qnot_le_lt. intro Hle. apply Qle_bool_iff in Hle. congruence.
  - destruct (Qle_bool x y) eqn:E; [|reflexivity].
    apply Qle_bool_iff in E. exfalso. exact (Qlt_not_le _ _ H E).
Qed.

(** ** [PriceCache] of [src/modules/price_cache.py] *)

Module price_cache_facts.
Import price_cache samples.

Section Capacity.

Context {V : Type}.
Implicit Types (d : odict V) (c : PriceCache V) (k : string).

Lemma od_delete_length k d : (length (od_delete k d) <= length d)%nat.
Proof. apply filter_length_le. Qed.

Lemma od_delete_present_length k d e :
  od_lookup k d = Some e -> (S (length (od_delete k d)) <= length d)%nat.
Proof.
  unfold od_lookup, od_delete. induction d as [|kv t IH]; simpl.
  - discriminate.
  - destruct (String.eqb k (fst kv)); simpl.
    + intros _. pose proof (filter_length_le (fun kv => negb (String.eqb k (fst kv))) t).
      lia.
    + intro H. specialize (IH H). lia.
Qed.

Lemma od_setitem_length k e d : (length (od_setitem k e d) <= S (length d))%nat.
Proof.
  induction d as [|kv t IH]; simpl; [lia|].
  destruct (String.eqb k (fst kv)); simpl; lia.
Qed.

Lemma od_lookup_setitem k e d : od_lookup k (od_setitem k e d) = Some e.
Proof.
  unfold od_lookup. induction d as [|kv t IH]; simpl.
  - rewrite String.eqb_refl. reflexivity.
  - destruct (String.eqb k (fst kv)) eqn:E; simpl.
    + rewrite String.eqb_refl. reflexivity.
    + rewrite E. exact IH.
Qed.

Lemma od_move_to_end_length k d d' :
  od_move_to_end k d = Ok d' -> (length d' <= length d)%nat.
Proof.
  unfold od_move_to_end. destruct (od_lookup k d) as [e|] eqn:E; [|discriminate].
  intro H. injection H as <-. rewrite length_app. simpl.
  pose proof (od_delete_present_length k d e E). lia.
Qed.

(** The eviction loop drops exactly the front entries in excess of
    [max - 1]; with a capacity of at least one it never pops from an empty
    dictionary. *)
Lemma evict_skipn (max : Z) d :
  1 <= max ->
  evict max d = Ok (skipn (Z.to_nat (Z.of_nat (length d) - max + 1)) d).
Proof.
  intro Hmax. induction d as [|kv t IH].
  - simpl. rewrite skipn_nil.
    destruct (0 <? max) eqn:E; [reflexivity|]. apply Z.ltb_ge in E. lia.
  - cbn [evict]. destruct (Z.of_nat (length (kv :: t)) <? max) eqn:E.
    + apply Z.ltb_lt in E.
      replace (Z.to_nat (Z.of_nat (length (kv :: t)) - max + 1)) with 0%nat by lia.
      reflexivity.
    + apply Z.ltb_ge in E. rewrite IH. simpl length in *.
      replace (Z.to_nat (Z.of_nat (S (length t)) - max + 1))
        with (S (Z.to_nat (Z.of_nat (length t) - max + 1))) by lia.
      reflexivity.
Qed.

Lemma evict_below (max : Z) d d' :
  1 <= max -> evict max d = Ok d' -> Z.of_nat (length d') < max.
Proof.
  intros Hmax H. rewrite (evict_skipn max d Hmax) in H. injection H as <-.
  rewrite length_skipn. lia.
Qed.

Lemma fold_delete_length (ks : list string) d :
  (length (fold_left (fun d k => od_delete k d) ks d) <= length d)%nat.
Proof.
  revert d. induction ks as [|k ks IH]; intro d; simpl; [lia|].
  specialize (IH (od_delete k d)). pose proof (od_delete_length k d). lia.
Qed.

Lemma get_within_capacity c key now :
  within_capacity c ->
  exists r c', get c key now = Ok (r, c') /\ max_size c' = max_size c /\
               within_capacity c'.
Proof.
  unfold within_capacity, get. intro Hc.
  destruct (od_lookup key (cache c)) as [[value ts]|] eqn:E.
  - destruct (Qltb (now - ts) (inject_Z (ttl c))).
    + unfold od_move_to_end. rewrite E. simpl.
      eexists _, _. split; [reflexivity|]. simpl. split; [reflexivity|].
      rewrite length_app. simpl.
      pose proof (od_delete_present_length key (cache c) _ E). lia.
    + eexists _, _. split; [reflexivity|]. simpl. split; [reflexivity|].
      pose proof (od_delete_length key (cache c)). lia.
  - eexists _, _. split; [reflexivity|]. simpl. split; [reflexivity|]. exact Hc.
Qed.

Lemma set_within_capacity c key value now :
  1 <= max_size c ->
  exists c', set c key value now = Ok c' /\ max_size c' = max_size c /\
             within_capacity c'.
Proof.
  intro Hmax. unfold set.
  destruct (evict (max_size c) (cache c)) as [d|e] eqn:Ev.
  2:{ rewrite (evict_skipn _ _ Hmax) in Ev. discriminate. }
  pose proof (evict_below _ _ _ Hmax Ev) as Hlt. simpl.
  unfold od_move_to_end at 1. rewrite od_lookup_setitem. simpl.
  eexists. split; [reflexivity|]. split; [reflexivity|].
  unfold within_capacity. simpl. rewrite length_app. simpl.
  pose proof (od_delete_present_length key _ _ (od_lookup_setitem key (value, now) d)).
  pose proof (od_setitem_length key (value, now) d). lia.
Qed.

End Capacity.

(** C10.  For a cache of capacity [max_size >= 1] that holds at most
    [max_size] entries, [get], [set], [clear_expired] and [clear] all
    succeed, keep [max_size] and leave at most [max_size] entries.  [set]
    first drops the front entries in excess of [max_size - 1] (whether or
    not the key is already present: the count alone decides) and only then
    writes the key and moves it to the end. *)
Theorem price_cache_capacity_invariant {V : Type} (c : PriceCache V) :
  1 <= max_size c ->
  within_capacity c ->
  (forall key now, exists r c',
      get c key now = Ok (r, c') /\ max_size c' = max_size c /\ within_capacity c') /\
  (forall key value now, exists c',
      set c key value now = Ok c' /\ max_size c' = max_size c /\ within_capacity c' /\
      od_move_to_end key
        (od_setitem key (value, now)
           (skipn (Z.to_nat (Z.of_nat (length (cache c)) - max_size c + 1)) (cache c)))
      = Ok (cache c')) /\
  (forall now, max_size (snd (clear_expired c now)) = max_size c /\
               within_capacity (snd (clear_expired c now))) /\
  (max_size (clear c) = max_size c /\ within_capacity (clear c)).
Proof.
  intros Hmax Hc. repeat split.
  - intros key now. apply get_within_capacity. exact Hc.
  - intros key value now.
    destruct (set_within_capacity c key value now Hmax) as (c' & Hs & Hm & Hw).
    exists c'. repeat split; try assumption.
    unfold set in Hs. rewrite (evict_skipn _ _ Hmax) in Hs. simpl in Hs.
    destruct (od_move_to_end key _) as [d'|e]; simpl in Hs; [|discriminate].
    injection Hs as <-. reflexivity.
  - unfold within_capacity in *. simpl.
    pose proof (fold_delete_length (expired_keys c now) (cache c)). lia.
  - unfold within_capacity. simpl. lia.
Qed.

Lemma price_cache_capacity_invariant_witness :
  (forall key now, exists r c',
      get full_cache key now = Ok (r, c') /\ max_size c' = max_size full_cache /\
      within_capacity c') /\
  (forall key value now, exists c',
      set full_cache key value now = Ok c' /\ max_size c' = max_size full_cache /\
      within_capacity c' /\
      od_move_to_end key
        (od_setitem key (value, now)
           (skipn (Z.to_nat (Z.of_nat (length (cache full_cache))
                             - max_size full_cache + 1)) (cache full_cache)))
      = Ok (cache c')) /\
  (forall now, max_size (snd (clear_expired full_cache now)) = max_size full_cache /\
               within_capacity (snd (clear_expired full_cache now))) /\
  (max_size (clear full_cache) = max_size full_cache /\ within_capacity (clear full_cache)).
Proof.
  apply (price_cache_capacity_invariant full_cache).
  - simpl. lia.
  - unfold within_capacity. simpl. lia.
Defined.

(** Writing a key that is already present in a full cache still evicts the
    oldest entry: the cache shrinks to one entry. *)
Example set_existing_key_evicts :
  set full_cache "b" 3%nat 1%Q
  = Ok (mkPriceCache 5 2 [("b", (3%nat, 1%Q))] 0 0).
Proof. reflexivity. Qed.

End price_cache_facts.

(** ** [execute_arbitrage] of [src/arbitrage_bot.py] *)

Module execute_facts.
Import arbitrage_bot samples.

(** *** The logging monad *)

Lemma bind_emit {B} (ev : event) (k : unit -> io B) :
  bind (emit ev) k = (ev :: fst (k tt), snd (k tt)).
Proof. unfold bind, emit. destruct (k tt). reflexivity. Qed.

Lemma bind_trace {A B} (m : io A) (k : A -> io B) :
  fst (bind m k)
  = fst m ++ match snd m with Ok a => fst (k a) | Raise _ => [] end.
Proof.
  destruct m as [t [a|e]]; simpl.
  - destruct (k a). reflexivity.
  - rewrite app_nil_r. reflexivity.
Qed.

Lemma bind_result {A B} (m : io A) (k : A -> io B) :
  snd (bind m k)
  = match snd m with Ok a => snd (k a) | Raise e => Raise e end.
Proof.
  destruct m as [t [a|e]]; simpl; [destruct (k a)|]; reflexivity.
Qed.



(** *** No quote is fetched *)







(** *** The shape of a call that is neither expired nor risk-limited *)

Lemma execute_past_guards b env o :
  passes_guards b env o ->
  execute_arbitrage b env o
  = mkRun
      (match save_trade env o (built_result b env o) with
       | Ok _ => Ok (built_result b env o)
       | Raise e => Raise e
       end)
      (match snd (execute_body b env o) with
       | Ok _ => b
       | Raise _ => with_daily_loss b (daily_loss b + inject_Z 10)%Q
       end)
      (fst (execute_body b env o)
       ++ [DbSaveTrade o (built_result b env o)
             (is_ok (save_trade env o (built_result b env o)))]).
Proof.
  intros [Hv Hr]. unfold execute_arbitrage, built_result. rewrite Hv, Hr. simpl.
  destruct (execute_body b env o) as [tr [res|e]]; simpl;
    match goal with |- context [save_trade ?e ?o ?r] => destruct (save_trade e o r) end;
    reflexivity.
Qed.

Lemma execute_body_starts b env o :
  exists tr, fst (execute_body b env o) = RateLimit LimRpc :: RpcGetBalance :: tr.
Proof.
  unfold execute_body. rewrite bind_emit. cbn [fst].
  rewrite bind_trace. simpl. eexists. reflexivity.
Qed.


(** A result built by the [try] block itself reports a realized profit. *)
Lemma jito_path_profit b env o res :
  snd (jito_path b env o) = Ok res -> actual_profit res <> None.
Proof.
  unfold jito_path. repeat (rewrite bind_result;
    match goal with |- context [snd ?m] => destruct (snd m) end; [|discriminate]).
  match goal with a : (bool * string)%type |- _ => destruct a as [[|] bid] end; simpl.
  - intro H. injection H as <-. discriminate.
  - discriminate.
Qed.

Lemma sequential_path_profit b env o res :
  snd (sequential_path b env o) = Ok res -> actual_profit res <> None.
Proof.
  unfold sequential_path. repeat (rewrite bind_result;
    match goal with |- context [snd ?m] => destruct (snd m) end; [|discriminate]).
  simpl. intro H. injection H as <-. discriminate.
Qed.

Lemma execute_body_profit b env o res :
  snd (execute_body b env o) = Ok res -> actual_profit res <> None.
Proof.
  unfold execute_body. repeat (rewrite bind_result;
    match goal with |- context [snd ?m] => destruct (snd m) end; [|discriminate]).
  match goal with x : bool |- _ => destruct x end;
    [apply jito_path_profit | apply sequential_path_profit].
Qed.

(** *** Expiry *)

(** C3.  An opportunity whose [expires_at] is not later than the clock is
    rejected at once: the call returns a [TradeResult] with [success =
    False], the error "Opportunity expired" and zero [gas_used]; it makes no
    call at all (so no network call) and leaves the bot as it was. *)
Theorem expired_opportunity_rejected (b : ProductionArbitrageBot) (env : ExecEnv)
  (o : ArbitrageOpportunity) :
  expires_at o <= utcnow env ->
  exists r,
    returned (execute_arbitrage b env o) = Ok r /\
    opportunity_id r = id o /\
    success r = false /\
    error r = Some "Opportunity expired" /\
    gas_used r = 0%Q /\
    trace (execute_arbitrage b env o) = [] /\
    filter is_network (trace (execute_arbitrage b env o)) = [] /\
    bot_after (execute_arbitrage b env o) = b.
Proof.
  intro H. unfold execute_arbitrage, is_valid.
  apply Z.ltb_ge in H. rewrite H. simpl.
  exists (expired_result o). repeat split.
Qed.

Lemma expired_opportunity_rejected_witness :
  exists r,
    returned (execute_arbitrage test_bot env_late thin_opportunity) = Ok r /\
    opportunity_id r = id thin_opportunity /\
    success r = false /\
    error r = Some "Opportunity expired" /\
    gas_used r = 0%Q /\
    trace (execute_arbitrage test_bot env_late thin_opportunity) = [] /\
    filter is_network (trace (execute_arbitrage test_bot env_late thin_opportunity)) = [] /\
    bot_after (execute_arbitrage test_bot env_late thin_opportunity) = test_bot.
Proof.
  apply (expired_opportunity_rejected test_bot env_late thin_opportunity).
  simpl. lia.
Defined.

(** *** The daily loss limit *)

(** C4.  For an unexpired opportunity: when the accumulated daily loss has
    reached [max_daily_loss] the call returns the risk-limit result without
    any call and without touching the bot; and a failed result carrying the
    error "Daily loss limit reached" with no network call in the trace is
    returned exactly when [daily_loss >= max_daily_loss]. *)
Theorem risk_limit_rejects_iff (b : ProductionArbitrageBot) (env : ExecEnv)
  (o : ArbitrageOpportunity) :
  utcnow env < expires_at o ->
  ((max_daily_loss b <= daily_loss b)%Q ->
     execute_arbitrage b env o = mkRun (Ok (risk_limit_result o)) b []) /\
  ((exists r,
       returned (execute_arbitrage b env o) = Ok r /\
       success r = false /\
       error r = Some "Daily loss limit reached" /\
       filter is_network (trace (execute_arbitrage b env o)) = [])
   <-> (max_daily_loss b <= daily_loss b)%Q).
Proof.
  intro Hv. apply Z.ltb_lt in Hv.
  assert (Hlim : (max_daily_loss b <= daily_loss b)%Q ->
                 execute_arbitrage b env o = mkRun (Ok (risk_limit_result o)) b []).
  { intro Hl. apply Qleb_le in Hl. unfold execute_arbitrage, is_valid.
    rewrite Hv, Hl. reflexivity. }
  split; [exact Hlim|]. split.
  - intros (r & _ & _ & _ & Hn).
    destruct (Qleb (max_daily_loss b) (daily_loss b)) eqn:E.
    + apply Qleb_le. exact E.
    + exfalso. rewrite execute_past_guards in Hn by (split; assumption).
      simpl in Hn. destruct (execute_body_starts b env o) as [tr Htr].
      rewrite Htr in Hn. simpl in Hn. discriminate.
  - intro Hl. rewrite (Hlim Hl). exists (risk_limit_result o). repeat split.
Qed.

Lemma risk_limit_rejects_iff_witness :
  ((max_daily_loss limited_bot <= daily_loss limited_bot)%Q ->
     execute_arbitrage limited_bot env_ok thin_opportunity
     = mkRun (Ok (risk_limit_result thin_opportunity)) limited_bot []) /\
  ((exists r,
       returned (execute_arbitrage limited_bot env_ok thin_opportunity) = Ok r /\
       success r = false /\
       error r = Some "Daily loss limit reached" /\
       filter is_network (trace (execute_arbitrage limited_bot env_ok thin_opportunity)) = [])
   <-> (max_daily_loss limited_bot <= daily_loss limited_bot)%Q).
Proof.
  apply (risk_limit_rejects_iff limited_bot env_ok thin_opportunity).
  simpl. lia.
Defined.

(** *** Before capital is committed *)




(** *** The daily loss *)




(** *** Exceptions *)

(** C5, as stated, fails: when the database refuses the insert, the
    exception raised by [save_trade] leaves [execute_arbitrage]; no
    [TradeResult] is returned. *)
Lemma save_trade_failure_propagates :
  returned (execute_arbitrage test_bot env_db_locked thin_opportunity)
  = Raise "database is locked".
Proof. reflexivity. Qed.

(** C5, amended.  Every call builds exactly one [TradeResult] [r].  An
    exception raised inside the [try] block (balance query, transaction
    building, signing, submission, bundle relay) never leaves the call: it
    is turned into the failed result carrying its message.  The call
    returns [r], unless [save_trade], which runs after the handler, raises:
    then that exception, and only that one, leaves the call. *)
Theorem exceptions_caught_except_save_trade (b : ProductionArbitrageBot)
  (env : ExecEnv) (o : ArbitrageOpportunity) :
  exists r,
    (returned (execute_arbitrage b env o) = Ok r \/
     exists e, save_trade env o r = Raise e /\
               returned (execute_arbitrage b env o) = Raise e) /\
    (is_ok (save_trade env o r) = true ->
     returned (execute_arbitrage b env o) = Ok r) /\
    (forall e, passes_guards b env o -> snd (execute_body b env o) = Raise e ->
               r = failed_result env o e).
Proof.
  unfold passes_guards, execute_arbitrage.
  destruct (negb (is_valid (utcnow env) o)) eqn:Hv.
  { exists (expired_result o). simpl. repeat split; auto.
    intros e [Hv' _]. rewrite Hv' in Hv. discriminate. }
  destruct (Qleb (max_daily_loss b) (daily_loss b)) eqn:Hl.
  { exists (risk_limit_result o). simpl. repeat split; auto.
    intros e [_ Hl']. discriminate. }
  destruct (execute_body b env o) as [tr [res|e]]; simpl.
  - exists res. destruct (save_trade env o res) as [u|e'] eqn:Hs; simpl.
    + repeat split; auto. intros; discriminate.
    + split; [right; exists e'; auto|]. split; intros; discriminate.
  - exists (failed_result env o e).
    destruct (save_trade env o (failed_result env o e)) as [u|e'] eqn:Hs; simpl.
    + repeat split; auto. intros e0 _ H. injection H as <-. reflexivity.
    + split; [right; exists e'; auto|]. split; [intros; discriminate|].
      intros e0 _ H. injection H as <-. reflexivity.
Qed.

End execute_facts.

(** ** [find_arbitrage_opportunities] of [src/arbitrage_bot.py] *)

Module scan_facts.
Import arbitrage_bot samples.

(** *** Subsequences *)

Lemma subseq_length {A} (l1 l2 : list A) :
  subseq l1 l2 -> (length l1 <= length l2)%nat.
Proof. induction 1; simpl; lia. Qed.

Lemma subseq_In {A} (l1 l2 : list A) (x : A) :
  subseq l1 l2 -> In x l1 -> In x l2.
Proof.
  induction 1 as [|y l1 l2 _ IH|y l1 l2 _ IH]; simpl; intro H; auto.
  destruct H as [->|H]; auto.
Qed.

Lemma subseq_NoDup {A} (l1 l2 : list A) :
  subseq l1 l2 -> NoDup l2 -> NoDup l1.
Proof.
  induction 1 as [|y l1 l2 Hs IH|y l1 l2 Hs IH]; intro Hnd.
  - constructor.
  - inversion Hnd; subst. auto.
  - inversion Hnd as [|? ? Hnot Hnd']; subst. constructor; [|auto].
    intro Hin. apply Hnot. exact (subseq_In _ _ _ Hs Hin).
Qed.

(** *** What the quote operations log *)

Lemma save_calls_app (t1 t2 : list event) :
  save_calls (t1 ++ t2) = save_calls t1 ++ save_calls t2.
Proof. apply flat_map_app. Qed.

Lemma get_jupiter_price_save_calls c t clk resp :
  save_calls (snd (get_jupiter_price c t clk resp)) = [].
Proof.
  unfold get_jupiter_price.
  destruct (cache_get c _ (t_get clk)) as [[cached|] c1]; [reflexivity|].
  destruct resp as [e|status body]; [reflexivity|].
  destruct (negb (status =? 200)); [reflexivity|].
  destruct (rbind body _); reflexivity.
Qed.

Lemma get_raydium_price_save_calls c t clk resp :
  save_calls (snd (get_raydium_price c t clk resp)) = [].
Proof.
  unfold get_raydium_price.
  destruct (cache_get c _ (t_get clk)) as [[cached|] c1]; [reflexivity|].
  destruct resp as [e|status body]; [reflexivity|].
  destruct (negb (status =? 200)); [reflexivity|].
  destruct (rbind body _) as [[r|]|]; reflexivity.
Qed.

(** *** One token *)

(** An iteration leaves the list of opportunities alone, or appends one
    opportunity for its token and hands that same opportunity to
    [save_opportunity]. *)
Lemma scan_token_cases b env st t :
  (opportunities (scan_token b env st t) = opportunities st /\
   save_calls (s_trace (scan_token b env st t)) = save_calls (s_trace st)) \/
  (exists o,
      opportunities (scan_token b env st t) = opportunities st ++ [o] /\
      save_calls (s_trace (scan_token b env st t)) = save_calls (s_trace st) ++ [o] /\
      token o = t /\ discovered b o).
Proof.
  unfold scan_token.
  pose proof (get_jupiter_price_save_calls (s_cache st) t (jupiter_clock env)
                (jupiter_response env)) as Hj.
  destruct (get_jupiter_price (s_cache st) t (jupiter_clock env) (jupiter_response env))
    as [[jupiter_data c1] tr1].
  pose proof (get_raydium_price_save_calls c1 t (raydium_clock env)
                (raydium_response env)) as Hr.
  destruct (get_raydium_price c1 t (raydium_clock env) (raydium_response env))
    as [[raydium_data c2] tr2].
  simpl in Hj, Hr.
  assert (Hsame : save_calls (s_trace st ++ tr1 ++ tr2) = save_calls (s_trace st)).
  { rewrite !save_calls_app, Hj, Hr, !app_nil_r. reflexivity. }
  destruct jupiter_data as [jd|]; [|left; split; [reflexivity|exact Hsame]].
  destruct raydium_data as [rd|]; [|left; split; [reflexivity|exact Hsame]].
  destruct (decimal_div _ _) as [ratio|e] eqn:Hdiv;
    [|left; split; [reflexivity|exact Hsame]].
  destruct (Qltb (ratio * inject_Z 100) (1 # 2)) eqn:Hpct;
    [left; split; [reflexivity|exact Hsame]|].
  destruct (direction jd rd) as [[[[bd sd] bp] sp] al] eqn:Hdir.
  destruct (size_loop b t bd sd bp sp _ trade_sizes) as [[[[s net] imp]|]|e] eqn:Hloop;
    [|left; split; [reflexivity|exact Hsame]..].
  right. eexists. cbn [opportunities s_trace]. split; [reflexivity|]. split.
  - rewrite !save_calls_app, Hj, Hr. simpl. rewrite ?app_nil_r. reflexivity.
  - split; [reflexivity|].
    exists jd, rd, ratio, al. cbn [token buy_dex sell_dex buy_price sell_price
                                   size_usd expected_profit price_impact].
    auto.
Qed.

(** *** All tokens *)

Lemma scan_tokens_spec b envs ts :
  forall i st, exists new,
    opportunities (scan_tokens b envs i ts st) = opportunities st ++ new /\
    save_calls (s_trace (scan_tokens b envs i ts st)) = save_calls (s_trace st) ++ new /\
    subseq (map token new) ts /\
    Forall (discovered b) new.
Proof.
  induction ts as [|t rest IH]; intros i st; simpl.
  - exists []. rewrite !app_nil_r. repeat split; constructor.
  - destruct (IH (S i) (scan_token b (envs i) st t)) as (new & Ho & Hs & Hsub & Hd).
    destruct (scan_token_cases b (envs i) st t) as [[Ho1 Hs1]|(o & Ho1 & Hs1 & Ht & Hdo)].
    + exists new. rewrite Ho, Hs, Ho1, Hs1. repeat split; auto.
      apply subseq_skip. exact Hsub.
    + exists (o :: new). rewrite Ho, Hs, Ho1, Hs1, <- !app_assoc. simpl.
      repeat split; auto.
      rewrite Ht. apply subseq_take. exact Hsub.
Qed.

Lemma find_spec b envs :
  subseq (map token (opportunities (find_arbitrage_opportunities b envs))) (tokens b) /\
  save_calls (s_trace (find_arbitrage_opportunities b envs))
  = opportunities (find_arbitrage_opportunities b envs) /\
  Forall (discovered b) (opportunities (find_arbitrage_opportunities b envs)).
Proof.
  unfold find_arbitrage_opportunities.
  destruct (scan_tokens_spec b envs (tokens b) 0%nat (mkScanState (price_cache b) [] []))
    as (new & Ho & Hs & Hsub & Hd).
  simpl in Ho, Hs. rewrite Ho, Hs. auto.
Qed.

(** C6.  One scan emits at most one opportunity per entry of
    [self.tokens]: the tokens of the opportunities returned, in order, are
    the tracked tokens with some left out, so there are no more of them than
    tracked tokens and none repeats when no tracked token does; and the
    opportunities handed to [save_opportunity] are exactly the ones
    returned, once each. *)
Theorem at_most_one_opportunity_per_token (b : ProductionArbitrageBot)
  (envs : nat -> ScanEnv) :
  subseq (map token (opportunities (find_arbitrage_opportunities b envs))) (tokens b) /\
  (length (opportunities (find_arbitrage_opportunities b envs)) <= length (tokens b))%nat /\
  (NoDup (tokens b) ->
   NoDup (map token (opportunities (find_arbitrage_opportunities b envs)))) /\
  save_calls (s_trace (find_arbitrage_opportunities b envs))
  = opportunities (find_arbitrage_opportunities b envs).
Proof.
  destruct (find_spec b envs) as (Hsub & Hs & _).
  split; [exact Hsub|]. split; [|split; [|exact Hs]].
  - apply subseq_length in Hsub. rewrite length_map in Hsub. exact Hsub.
  - intro Hnd. exact (subseq_NoDup _ _ Hsub Hnd).
Qed.

(** *** Buy below sell *)

Lemma decimal_div_ok a b r :
  decimal_div a b = Ok r -> ~ (b == 0)%Q /\ r = (a / b)%Q.
Proof.
  unfold decimal_div. destruct (Qeq_bool b 0) eqn:E; [discriminate|].
  intro H. injection H as <-. split; [|reflexivity].
  intro Hb. apply Qeq_bool_iff in Hb. congruence.
Qed.

(** A relative difference of at least 0.5% needs two different prices and
    a positive lower price. *)
Lemma spread_positive (a m r : Q) :
  decimal_div a m = Ok r -> (0 <= a)%Q -> Qltb (r * inject_Z 100) (1 # 2) = false ->
  (0 < a)%Q /\ (0 < m)%Q.
Proof.
  intros Hdiv Ha Hpct. apply decimal_div_ok in Hdiv as [Hm ->].
  apply Qltb_ge in Hpct.
  assert (Hr : (0 < a / m)%Q).
  { assert (H100 : (0 < inject_Z 100)%Q) by reflexivity.
    destruct (Qlt_le_dec 0 (a / m)) as [H|H]; [exact H|].
    exfalso. apply (Qlt_not_le (a / m * inject_Z 100) (1 # 2)); [|exact Hpct].
    apply Qle_lt_trans with (y := 0%Q); [|reflexivity].
    setoid_replace 0%Q with (0 * inject_Z 100)%Q by reflexivity.
    apply Qmult_le_compat_r; [exact H | apply Qlt_le_weak; exact H100]. }
  assert (Heq : (a / m * m == a)%Q) by (field; exact Hm).
  destruct (Q_dec 0 m) as [[Hpos|Hneg]|Hz].
  - split; [|exact Hpos]. rewrite <- Heq. apply Qmult_lt_0_compat; assumption.
  - exfalso.
    assert (Hle : (a / m * m <= 0)%Q).
    { setoid_replace 0%Q with (a / m * 0)%Q by ring.
      rewrite (Qmult_comm (a / m) m), (Qmult_comm (a / m) 0).
      apply Qmult_le_compat_r; apply Qlt_le_weak; assumption. }
    rewrite Heq in Hle.
    assert (Ha0 : (a == 0)%Q) by (apply Qle_antisym; assumption).
    rewrite Ha0 in Hr. unfold Qdiv in Hr. rewrite Qmult_0_l in Hr.
    exact (Qlt_irrefl 0 Hr).
  - exfalso. apply Hm. symmetry. exact Hz.
Qed.

Lemma Qabs_pos_neq (x y : Q) : (0 < Qabs (x - y))%Q -> ~ (x == y)%Q.
Proof.
  intros H Heq. rewrite Heq in H.
  setoid_replace (y - y)%Q with 0%Q in H by ring.
  exact (Qlt_irrefl 0 H).
Qed.

Lemma discovered_buy_below_sell b o :
  discovered b o -> (0 < buy_price o)%Q /\ (buy_price o < sell_price o)%Q.
Proof.
  intros ([jp jl] & [rp rl] & ratio & al & Hdiv & Hpct & Hdir & _).
  cbn [fst] in Hdiv.
  destruct (spread_positive _ _ _ Hdiv (Qabs_nonneg _) Hpct) as [Hdiff Hmin].
  apply Qabs_pos_neq in Hdiff.
  unfold direction in Hdir. unfold Qmin in Hmin.
  destruct (Qltb jp rp) eqn:Hlt.
  - injection Hdir as _ _ <- <- _. apply Qltb_lt in Hlt.
    destruct (Qltb rp jp) eqn:Hgt.
    + apply Qltb_lt in Hgt. exfalso. exact (Qlt_irrefl _ (Qlt_trans _ _ _ Hlt Hgt)).
    + split; assumption.
  - injection Hdir as _ _ <- <- _. apply Qltb_ge in Hlt.
    assert (Hgt : (rp < jp)%Q).
    { destruct (Qlt_le_dec rp jp) as [H|H]; [exact H|].
      exfalso. apply Hdiff. apply Qle_antisym; assumption. }
    apply Qltb_lt in Hgt as Hgt'. rewrite Hgt' in Hmin. split; assumption.
Qed.

(** C9.  Every opportunity the scanner returns was created with
    [buy_price < sell_price]; and [is_valid] holds exactly when the clock
    reading is earlier than [expires_at]. *)
Theorem opportunity_buy_below_sell_and_validity (b : ProductionArbitrageBot)
  (envs : nat -> ScanEnv) :
  Forall (fun o => (buy_price o < sell_price o)%Q)
         (opportunities (find_arbitrage_opportunities b envs)) /\
  (forall (o : ArbitrageOpportunity) (utcnow_ : Z),
      is_valid utcnow_ o = true <-> utcnow_ < expires_at o).
Proof.
  split.
  - destruct (find_spec b envs) as (_ & _ & Hd).
    eapply Forall_impl; [|exact Hd].
    intros o Ho. exact (proj2 (discovered_buy_below_sell b o Ho)).
  - intros o utcnow_. unfold is_valid. apply Z.ltb_lt.
Qed.

(** *** Sizing *)


Lemma size_loop_sound b t bd sd bp sp max sizes s net imp :
  size_loop b t bd sd bp sp max sizes = Ok (Some (s, net, imp)) ->
  first_clearing_profit_floor b t bd sd bp sp max sizes s net imp.
Proof.
  induction sizes as [|x rest IH]; simpl; [discriminate|].
  destruct (Qltb max (inject_Z x)) eqn:Hmax; [discriminate|].
  apply Qltb_ge in Hmax.
  assert (Hskip : passed_over b t bd sd bp sp (inject_Z x) ->
                  size_loop b t bd sd bp sp max rest = Ok (Some (s, net, imp)) ->
                  first_clearing_profit_floor b t bd sd bp sp max (x :: rest) s net imp).
  { intros Hp H. destruct (IH H) as (pre & y & post & -> & Hrest).
    exists (x :: pre), y, post. split; [reflexivity|].
    destruct Hrest as (Hs & Hpre & Hrest). split; [exact Hs|]. split; [|exact Hrest].
    constructor; [split; assumption | exact Hpre]. }
  destruct (Qltb (max_price_impact b) _) eqn:Himp.
  - apply Hskip. left. apply Qltb_lt. exact Himp.
  - destruct (net_profit_for t bd sd bp sp (inject_Z x)) as [n|e] eqn:Hnet; simpl;
      [|discriminate].
    destruct (Qleb (min_profit_usd b) n) eqn:Hmin.
    + intro H. injection H as <- <- <-.
      exists [], x, rest. apply Qltb_ge in Himp. apply Qleb_le in Hmin.
      repeat split; auto.
    + apply Hskip. right. exists n. split; [exact Hnet|]. apply Qleb_gt. exact Hmin.
Qed.




(** *** Liquidity floors *)

(** On a cache miss the Raydium quote operation returns a quote only when
    its price is positive and its liquidity is above the token's floor. *)
Lemma raydium_parse_above_floor t pairs price liquidity :
  raydium_parse t pairs = Ok (Some (price, liquidity)) ->
  (0 < price)%Q /\ (min_liquidity t < liquidity)%Q.
Proof.
  unfold raydium_parse. destruct (filter is_raydium_usd_pair pairs) as [|p rest];
    [discriminate|].
  destruct (decimal_of_default0 (liquidity_usd p)) as [k|]; [|discriminate]. simpl.
  destruct (max_by_liquidity p k rest) as [best|]; [|discriminate]. simpl.
  destruct (decimal_of_default0 (priceUsd best)) as [pr|]; [|discriminate]. simpl.
  destruct (decimal_of_default0 (liquidity_usd best)) as [lq|]; [|discriminate]. simpl.
  destruct (Qltb 0 pr) eqn:Hp; [|discriminate].
  destruct (Qltb (min_liquidity t) lq) eqn:Hl; [|discriminate].
  simpl. intro H. injection H as <- <-.
  split; apply Qltb_lt; assumption.
Qed.

Lemma raydium_quote_respects_liquidity_floor c t clk resp price liquidity c' tr :
  fst (cache_get c (String.append "raydium_" (mint t)) (t_get clk)) = None ->
  get_raydium_price c t clk resp = (Some (price, liquidity), c', tr) ->
  (min_liquidity t < liquidity)%Q.
Proof.
  unfold get_raydium_price.
  destruct (cache_get c _ (t_get clk)) as [[cached|] c1]; [discriminate|].
  intros _. destruct resp as [e|status body]; [discriminate|].
  destruct (negb (status =? 200)); [discriminate|].
  destruct body as [pairs|e]; simpl; [|discriminate].
  destruct (raydium_parse t pairs) as [[[p l]|]|] eqn:Hp; try discriminate.
  intro H. injection H as <- <- _ _.
  exact (proj2 (raydium_parse_above_floor t pairs p l Hp)).
Qed.

(** C8 fails for Jupiter.  The response below yields a liquidity estimate
    of zero, below the token's floor of 1000, and [get_jupiter_price]
    returns (and caches) the quote all the same. *)
Theorem jupiter_quote_ignores_liquidity_floor :
  exists price liquidity c' tr,
    get_jupiter_price (mkPriceCache [] 3) test_token (mkQuoteClock 0 0)
                      jupiter_quote_no_liquidity
    = (Some (price, liquidity), c', tr) /\
    (liquidity < min_liquidity test_token)%Q.
Proof.
  do 4 eexists. split; [vm_compute; reflexivity|]. reflexivity.
Qed.

End scan_facts.

(** ** More on [PriceCache] of [src/modules/price_cache.py] *)

Module price_cache_ext_facts.
Import price_cache price_cache_ext.

Section Dictionary.

Context {V : Type}.
Implicit Types (d : odict V) (c : PriceCache V) (k : string) (e : V * Q).

Lemma od_lookup_cons k kv d :
  od_lookup k (kv :: d) = if String.eqb k (fst kv) then Some (snd kv) else od_lookup k d.
Proof. unfold od_lookup. simpl. destruct (String.eqb k (fst kv)); reflexivity. Qed.

Lemma od_lookup_app k d1 d2 :
  od_lookup k (d1 ++ d2)
  = match od_lookup k d1 with Some e => Some e | None => od_lookup k d2 end.
Proof.
  induction d1 as [|kv t IH]; [reflexivity|].
  simpl app. rewrite !od_lookup_cons. destruct (String.eqb k (fst kv)); auto.
Qed.

Lemma od_lookup_delete_same k d : od_lookup k (od_delete k d) = None.
Proof.
  induction d as [|kv t IH]; [reflexivity|]. simpl.
  destruct (String.eqb k (fst kv)) eqn:E; simpl; [exact IH|].
  rewrite od_lookup_cons, E. exact IH.
Qed.

Lemma od_lookup_delete_other k k' d :
  k <> k' -> od_lookup k' (od_delete k d) = od_lookup k' d.
Proof.
  intro Hne. induction d as [|kv t IH]; [reflexivity|]. simpl.
  destruct (String.eqb k (fst kv)) eqn:E; simpl; rewrite !od_lookup_cons.
  - apply String.eqb_eq in E. subst k.
    destruct (String.eqb k' (fst kv)) eqn:E'; [|exact IH].
    apply String.eqb_eq in E'. congruence.
  - rewrite IH. reflexivity.
Qed.

Lemma od_lookup_setitem_other k k' e d :
  k <> k' -> od_lookup k' (od_setitem k e d) = od_lookup k' d.
Proof.
  intro Hne. induction d as [|kv t IH]; simpl.
  - rewrite od_lookup_cons. simpl.
    destruct (String.eqb k' k) eqn:E; [|reflexivity].
    apply String.eqb_eq in E. congruence.
  - destruct (String.eqb k (fst kv)) eqn:E; rewrite !od_lookup_cons; simpl.
    + apply String.eqb_eq in E. subst k.
      destruct (String.eqb k' (fst kv)) eqn:E'; [|reflexivity].
      apply String.eqb_eq in E'. congruence.
    + rewrite IH. reflexivity.
Qed.

Lemma od_lookup_None k d : od_lookup k d = None <-> ~ In k (map fst d).
Proof.
  induction d as [|kv t IH]; simpl.
  - split; auto.
  - rewrite od_lookup_cons. destruct (String.eqb k (fst kv)) eqn:E.
    + apply String.eqb_eq in E. split; [discriminate|]. intro H. exfalso. auto.
    + apply String.eqb_neq in E. rewrite IH. split.
      * intros H [H1|H1]; [congruence|auto].
      * intros H H1. auto.
Qed.

Lemma od_setitem_absent k e d :
  od_lookup k d = None -> od_setitem k e d = d ++ [(k, e)].
Proof.
  induction d as [|kv t IH]; simpl; [reflexivity|].
  rewrite od_lookup_cons. destruct (String.eqb k (fst kv)); [discriminate|].
  intro H. rewrite (IH H). reflexivity.
Qed.

Lemma od_delete_absent k d : od_lookup k d = None -> od_delete k d = d.
Proof.
  induction d as [|kv t IH]; simpl; [reflexivity|].
  rewrite od_lookup_cons. destruct (String.eqb k (fst kv)); [discriminate|].
  simpl. intro H. rewrite (IH H). reflexivity.
Qed.

Lemma od_delete_idem k d : od_delete k (od_delete k d) = od_delete k d.
Proof. apply od_delete_absent, od_lookup_delete_same. Qed.

Lemma od_delete_app k d1 d2 :
  od_delete k (d1 ++ d2) = od_delete k d1 ++ od_delete k d2.
Proof. apply filter_app. Qed.

Lemma od_delete_last k e : od_delete k [(k, e)] = [].
Proof. unfold od_delete. simpl. rewrite String.eqb_refl. reflexivity. Qed.

Lemma od_lookup_tl k d : od_lookup k d = None -> od_lookup k (tl d) = None.
Proof.
  destruct d as [|kv t]; [auto|]. simpl. rewrite od_lookup_cons.
  destruct (String.eqb k (fst kv)); [discriminate | auto].
Qed.

(** What [set] leaves in the dictionary after an eviction that kept [d]. *)
Lemma set_after_evict c key value now d :
  evict (max_size c) (cache c) = Ok d ->
  set c key value now
  = Ok (with_cache c (od_delete key (od_setitem key (value, now) d)
                      ++ [(key, (value, now))])).
Proof.
  intro H. unfold set. rewrite H. simpl.
  unfold od_move_to_end. rewrite price_cache_facts.od_lookup_setitem. reflexivity.
Qed.

End Dictionary.

Lemma set_get_round_trip {V : Type} (c : PriceCache V) (key : string)
  (value : V) (t0 now : Q) :
  1 <= max_size c ->
  (now - t0 < inject_Z (ttl c))%Q ->
  exists c1 c2,
    set c key value t0 = Ok c1 /\
    get c1 key now = Ok (Some value, c2) /\
    cache c2 = cache c1 /\
    hits c2 = S (hits c) /\ misses c2 = misses c.
Proof.
  intros Hmax Hfresh.
  rewrite (set_after_evict c key value t0 _ (price_cache_facts.evict_skipn _ _ Hmax)).
  eexists. eexists. split; [reflexivity|].
  unfold get. cbn [cache with_cache ttl max_size hits misses].
  set (d := od_delete key (od_setitem key (value, t0) _)).
  assert (Hl : od_lookup key (d ++ [(key, (value, t0))]) = Some (value, t0)).
  { rewrite od_lookup_app. unfold d. rewrite od_lookup_delete_same.
    rewrite od_lookup_cons. simpl. rewrite String.eqb_refl. reflexivity. }
  rewrite Hl. apply Qltb_lt in Hfresh. rewrite Hfresh.
  unfold od_move_to_end. rewrite Hl. simpl.
  rewrite od_delete_app, od_delete_last, app_nil_r. unfold d at 1.
  rewrite od_delete_idem. fold d. repeat split.
Qed.

(** X1.  A value written with [set] is read back by [get] for as long as it
    is younger than the TTL: the read returns the value, counts a hit and
    leaves the dictionary as the write left it. *)
Theorem set_then_get_returns_value {V : Type} (c : PriceCache V) (key : string)
  (value : V) (t0 now : Q) :
  1 <= max_size c ->
  (now - t0 < inject_Z (ttl c))%Q ->
  exists c1 c2,
    set c key value t0 = Ok c1 /\
    get c1 key now = Ok (Some value, c2) /\
    cache c2 = cache c1 /\
    hits c2 = S (hits c) /\ misses c2 = misses c.
Proof.
  intros. eapply set_get_round_trip; eassumption.
Qed.

Lemma set_then_get_returns_value_witness :
  exists c1 c2,
    set samples.full_cache "c" 7%nat 0%Q = Ok c1 /\
    get c1 "c" 1%Q = Ok (Some 7%nat, c2) /\
    cache c2 = cache c1 /\
    hits c2 = S (hits samples.full_cache) /\ misses c2 = misses samples.full_cache.
Proof.
  apply (set_then_get_returns_value samples.full_cache "c" 7%nat 0%Q 1%Q).
  - simpl. lia.
  - reflexivity.
Defined.

(** X2.  Reading an entry that is [ttl] old or older returns nothing,
    counts a miss and removes that entry; every other key keeps its
    entry. *)
Theorem get_purges_stale_entry {V : Type} (c : PriceCache V) (key : string)
  (value : V) (timestamp now : Q) :
  od_lookup key (cache c) = Some (value, timestamp) ->
  (inject_Z (ttl c) <= now - timestamp)%Q ->
  exists c',
    get c key now = Ok (None, c') /\
    od_lookup key (cache c') = None /\
    (forall k', k' <> key -> od_lookup k' (cache c') = od_lookup k' (cache c)) /\
    misses c' = S (misses c) /\ hits c' = hits c.
Proof.
  intros Hl Hold. unfold get. rewrite Hl.
  apply Qltb_ge in Hold. rewrite Hold.
  eexists. split; [reflexivity|]. simpl. split; [apply od_lookup_delete_same|].
  split; [|split; reflexivity].
  intros k' Hne. apply od_lookup_delete_other. congruence.
Qed.

Lemma get_purges_stale_entry_witness :
  exists c',
    get samples.full_cache "a" 5%Q = Ok (None, c') /\
    od_lookup "a" (cache c') = None /\
    (forall k', k' <> "a" ->
                od_lookup k' (cache c') = od_lookup k' (cache samples.full_cache)) /\
    misses c' = S (misses samples.full_cache) /\ hits c' = hits samples.full_cache.
Proof.
  apply (get_purges_stale_entry samples.full_cache "a" 1%nat 0%Q 5%Q).
  - reflexivity.
  - vm_compute. discriminate.
Defined.

(** X3.  Writing a new key into a cache that holds exactly [max_size]
    entries evicts the entry at the front, the least recently used one, and
    nothing else: the dictionary becomes its tail followed by the new
    entry. *)
Theorem set_new_key_when_full_evicts_oldest {V : Type} (c : PriceCache V)
  (key : string) (value : V) (now : Q) :
  1 <= max_size c ->
  Z.of_nat (length (cache c)) = max_size c ->
  od_lookup key (cache c) = None ->
  set c key value now = Ok (with_cache c (tl (cache c) ++ [(key, (value, now))])).
Proof.
  intros Hmax Hfull Hnew.
  rewrite (set_after_evict c key value now _ (price_cache_facts.evict_skipn _ _ Hmax)).
  replace (Z.to_nat (Z.of_nat (length (cache c)) - max_size c + 1)) with 1%nat by lia.
  change (skipn 1 (cache c)) with (tl (cache c)).
  pose proof (od_lookup_tl key (cache c) Hnew) as Htl.
  rewrite (od_setitem_absent key _ _ Htl), od_delete_app, od_delete_last, app_nil_r.
  rewrite (od_delete_absent key _ Htl). reflexivity.
Qed.

Lemma set_new_key_when_full_evicts_oldest_witness :
  set samples.full_cache "c" 7%nat 1%Q
  = Ok (with_cache samples.full_cache
          (tl (cache samples.full_cache) ++ [("c", (7%nat, 1%Q))])).
Proof.
  apply (set_new_key_when_full_evicts_oldest samples.full_cache "c" 7%nat 1%Q).
  - simpl. lia.
  - reflexivity.
  - reflexivity.
Defined.

(** X4.  In a cache of capacity two or more that is within capacity, a key
    that has just been read with a hit survives the next write of any other
    key, with its value and timestamp: the read moved it away from the
    front, where eviction takes place. *)
Theorem recently_read_key_survives_next_set {V : Type} (c c1 : PriceCache V)
  (k k' : string) (v v' : V) (now now' : Q) :
  2 <= max_size c ->
  within_capacity c ->
  get c k now = Ok (Some v, c1) ->
  k' <> k ->
  exists c2,
    set c1 k' v' now' = Ok c2 /\
    od_lookup k (cache c2) = od_lookup k (cache c) /\
    exists timestamp, od_lookup k (cache c2) = Some (v, timestamp).
Proof.
  intros Hmax Hcap Hget Hne. unfold within_capacity in Hcap. unfold get in Hget.
  destruct (od_lookup k (cache c)) as [[v0 ts]|] eqn:Hl; [|discriminate].
  destruct (Qltb (now - ts) (inject_Z (ttl c))); [|discriminate].
  unfold od_move_to_end in Hget. rewrite Hl in Hget. simpl in Hget.
  injection Hget as <- <-.
  set (del := od_delete k (cache c)).
  assert (Hdel : od_lookup k del = None) by apply od_lookup_delete_same.
  assert (Hlen : (S (length del) <= length (cache c))%nat)
    by exact (price_cache_facts.od_delete_present_length k (cache c) _ Hl).
  assert (Hmax1 : 1 <= max_size c) by lia.
  match goal with |- context [set ?x _ _ _] => set (cc := x) end.
  rewrite (set_after_evict cc k' v' now' _
             (price_cache_facts.evict_skipn (max_size cc) (cache cc) Hmax1)).
  eexists. split; [reflexivity|].
  cbn [cache with_cache]. unfold cc. cbn [cache max_size].
  fold del.
  assert (Hkeep : od_lookup k
            (skipn (Z.to_nat (Z.of_nat (length (del ++ [(k, (v0, ts))]))
                              - max_size c + 1)) (del ++ [(k, (v0, ts))]))
          = Some (v0, ts)).
  { rewrite length_app. simpl length.
    destruct (Z.to_nat (Z.of_nat (length del + 1) - max_size c + 1)) as [|[|n]] eqn:En.
    - simpl. rewrite od_lookup_app, Hdel, od_lookup_cons. simpl.
      rewrite String.eqb_refl. reflexivity.
    - destruct del as [|x r] eqn:Ed.
      + cbn [length] in En. lia.
      + simpl. rewrite od_lookup_app.
        rewrite (od_lookup_tl k (x :: r) Hdel : od_lookup k r = None).
        rewrite od_lookup_cons. simpl. rewrite String.eqb_refl. reflexivity.
    - lia. }
  assert (Hgoal : forall d e, od_lookup k d = Some (v0, ts) ->
            od_lookup k (od_delete k' (od_setitem k' e d) ++ [(k', e)]) = Some (v0, ts)).
  { intros d e Hd. rewrite od_lookup_app, od_lookup_delete_other by exact Hne.
    rewrite od_lookup_setitem_other by exact Hne. rewrite Hd. reflexivity. }
  rewrite (Hgoal _ _ Hkeep). split; [reflexivity|]. exists ts. reflexivity.
Qed.

Lemma recently_read_key_survives_next_set_witness :
  exists c2,
    set (mkPriceCache 5 2 [("b", (2%nat, 0%Q)); ("a", (1%nat, 0%Q))] 1 0)
        "c" 7%nat 2%Q = Ok c2 /\
    od_lookup "a" (cache c2) = od_lookup "a" (cache samples.full_cache) /\
    exists timestamp, od_lookup "a" (cache c2) = Some (1%nat, timestamp).
Proof.
  apply (recently_read_key_survives_next_set samples.full_cache _ "a" "c" 1%nat 7%nat
           1%Q 2%Q).
  - simpl. lia.
  - unfold within_capacity. simpl. lia.
  - reflexivity.
  - discriminate.
Defined.

(** X5.  Below capacity a write loses nothing: the key written holds the
    new value and timestamp, and every other key keeps its entry. *)
Theorem set_below_capacity_keeps_other_entries {V : Type} (c : PriceCache V)
  (key : string) (value : V) (now : Q) :
  Z.of_nat (length (cache c)) < max_size c ->
  exists c',
    set c key value now = Ok c' /\
    od_lookup key (cache c') = Some (value, now) /\
    (forall k', k' <> key -> od_lookup k' (cache c') = od_lookup k' (cache c)).
Proof.
  intro Hroom. assert (Hmax : 1 <= max_size c) by lia.
  rewrite (set_after_evict c key value now _ (price_cache_facts.evict_skipn _ _ Hmax)).
  replace (Z.to_nat (Z.of_nat (length (cache c)) - max_size c + 1)) with 0%nat by lia.
  simpl skipn. eexists. split; [reflexivity|]. cbn [cache with_cache]. split.
  - rewrite od_lookup_app, od_lookup_delete_same, od_lookup_cons. simpl.
    rewrite String.eqb_refl. reflexivity.
  - intros k' Hne. assert (Hne' : key <> k') by congruence.
    rewrite od_lookup_app, od_lookup_delete_other, od_lookup_setitem_other by exact Hne'.
    destruct (od_lookup k' (cache c)); [reflexivity|].
    rewrite od_lookup_cons. simpl.
    destruct (String.eqb k' key) eqn:E; [|reflexivity].
    apply String.eqb_eq in E. congruence.
Qed.

Lemma set_below_capacity_keeps_other_entries_witness :
  exists c',
    set (mkPriceCache 5 3 [("a", (1%nat, 0%Q))] 0 0) "b" 2%nat 1%Q = Ok c' /\
    od_lookup "b" (cache c') = Some (2%nat, 1%Q) /\
    (forall k', k' <> "b" ->
       od_lookup k' (cache c') = od_lookup k' [("a", (1%nat, 0%Q))]).
Proof.
  apply (set_below_capacity_keeps_other_entries
           (mkPriceCache 5 3 [("a", (1%nat, 0%Q))] 0 0) "b" 2%nat 1%Q).
  simpl. lia.
Defined.

(** *** The sweep *)

Section Sweep.

Context {V : Type}.
Implicit Types (d : odict V) (c : PriceCache V).

Lemma filter_filter {A} (f g : A -> bool) (l : list A) :
  filter f (filter g l) = filter (fun x => g x && f x) l.
Proof.
  induction l as [|x l IH]; simpl; [reflexivity|].
  destruct (g x); simpl; [destruct (f x)|]; rewrite ?IH; reflexivity.
Qed.

Lemma fold_delete_filter (ks : list string) d :
  fold_left (fun d k => od_delete k d) ks d
  = filter (fun kv => negb (existsb (String.eqb (fst kv)) ks)) d.
Proof.
  revert d. induction ks as [|k ks IH]; intro d; simpl.
  - symmetry. apply forallb_filter_id. apply forallb_forall. reflexivity.
  - rewrite IH. unfold od_delete. rewrite filter_filter.
    apply filter_ext. intro kv. rewrite negb_orb, (String.eqb_sym k). reflexivity.
Qed.

Lemma unique_key_entry d kv kv' :
  NoDup (map fst d) -> In kv d -> In kv' d -> fst kv = fst kv' -> kv = kv'.
Proof.
  induction d as [|x t IH]; simpl; [tauto|].
  intros Hnd [->|Hin] [->|Hin'] Hk; auto.
  - inversion Hnd as [|? ? Hnot _]; subst. exfalso. apply Hnot.
    rewrite Hk. apply in_map. exact Hin'.
  - inversion Hnd as [|? ? Hnot _]; subst. exfalso. apply Hnot.
    rewrite <- Hk. apply in_map. exact Hin.
  - inversion Hnd; subst. auto.
Qed.

Lemma swept_entries c now :
  keys_unique c ->
  fold_left (fun d k => od_delete k d) (expired_keys c now) (cache c)
  = filter (fun kv => negb (stale (ttl c) now kv)) (cache c).
Proof.
  intro Hu. rewrite fold_delete_filter. apply filter_ext_in.
  intros kv Hin. f_equal. unfold expired_keys. fold (stale (V := V) (ttl c) now).
  destruct (stale (ttl c) now kv) eqn:Hs.
  - apply existsb_exists. exists (fst kv). split; [|apply String.eqb_refl].
    apply in_map. apply filter_In. split; assumption.
  - destruct (existsb _ _) eqn:E; [|reflexivity]. exfalso.
    apply existsb_exists in E as (k & Hk & Heq).
    apply String.eqb_eq in Heq. apply in_map_iff in Hk as (kv' & Hfst & Hin').
    apply filter_In in Hin' as [Hin' Hs'].
    assert (kv = kv')
      by (apply (unique_key_entry (cache c)); [exact Hu | exact Hin | exact Hin' | congruence]).
    subst kv'. congruence.
Qed.

End Sweep.

(** X6.  [clear_expired] removes exactly the entries that are [ttl] old or
    older at the time of the sweep and returns how many they were; the
    younger entries stay, in their order. *)
Theorem clear_expired_removes_exactly_stale {V : Type} (c : PriceCache V) (now : Q) :
  keys_unique c ->
  clear_expired c now
  = (length (filter (stale (ttl c) now) (cache c)),
     with_cache c (filter (fun kv => negb (stale (ttl c) now kv)) (cache c))).
Proof.
  intro Hu. unfold clear_expired. rewrite (swept_entries c now Hu).
  unfold expired_keys. rewrite length_map. reflexivity.
Qed.

Lemma clear_expired_removes_exactly_stale_witness :
  clear_expired (mkPriceCache 5 3 [("a", (1%nat, 0%Q)); ("b", (2%nat, 4%Q))] 0 0) 6%Q
  = (length (filter (stale 5 6%Q) [("a", (1%nat, 0%Q)); ("b", (2%nat, 4%Q))]),
     with_cache (mkPriceCache 5 3 [("a", (1%nat, 0%Q)); ("b", (2%nat, 4%Q))] 0 0)
       (filter (fun kv => negb (stale 5 6%Q kv))
               [("a", (1%nat, 0%Q)); ("b", (2%nat, 4%Q))])).
Proof.
  apply (clear_expired_removes_exactly_stale
           (mkPriceCache 5 3 [("a", (1%nat, 0%Q)); ("b", (2%nat, 4%Q))] 0 0) 6%Q).
  unfold keys_unique. simpl. repeat constructor; simpl; intuition discriminate.
Defined.

(** *** Keys stay unique *)

Section Unique.

Context {V : Type}.
Implicit Types (d : odict V) (c : PriceCache V).

Lemma od_delete_keys_incl k d x : In x (map fst (od_delete k d)) -> In x (map fst d).
Proof.
  intro H. apply in_map_iff in H as (kv & <- & Hin).
  apply filter_In in Hin as [Hin _]. apply in_map. exact Hin.
Qed.

Lemma od_delete_unique k d : NoDup (map fst d) -> NoDup (map fst (od_delete k d)).
Proof.
  induction d as [|kv t IH]; simpl; [auto|]. intro H. inversion H; subst.
  destruct (negb (String.eqb k (fst kv))); simpl; [|auto].
  constructor; [|auto]. intro Hin. apply od_delete_keys_incl in Hin. auto.
Qed.

Lemma od_setitem_keys k e d x :
  In x (map fst (od_setitem k e d)) -> x = k \/ In x (map fst d).
Proof.
  induction d as [|kv t IH]; simpl.
  - intros [H|[]]; auto.
  - destruct (String.eqb k (fst kv)) eqn:E; simpl.
    + apply String.eqb_eq in E. subst k. tauto.
    + intros [H|H]; [tauto|]. destruct (IH H); tauto.
Qed.

Lemma od_setitem_unique k e d : NoDup (map fst d) -> NoDup (map fst (od_setitem k e d)).
Proof.
  induction d as [|kv t IH]; simpl.
  - intros _. repeat constructor. auto.
  - intro H. inversion H as [|? ? Hnot Ht]; subst.
    destruct (String.eqb k (fst kv)) eqn:E; simpl.
    + apply String.eqb_eq in E. subst k. constructor; assumption.
    + constructor; [|auto]. intro Hin. apply od_setitem_keys in Hin as [Heq|Hin]; [|auto].
      rewrite Heq, String.eqb_refl in E. discriminate.
Qed.

Lemma moved_to_end_unique k e d :
  NoDup (map fst d) -> NoDup (map fst (od_delete k d ++ [(k, e)])).
Proof.
  intro H. rewrite map_app. simpl. apply NoDup_app.
  - apply od_delete_unique. exact H.
  - repeat constructor. auto.
  - intros x Hin [<-|[]]. revert Hin. apply od_lookup_None, od_lookup_delete_same.
Qed.

Lemma skipn_unique (n : nat) d : NoDup (map fst d) -> NoDup (map fst (skipn n d)).
Proof.
  revert d. induction n as [|n IH]; intros d H; [exact H|].
  destruct d as [|kv t]; [exact H|]. simpl. apply IH. inversion H; assumption.
Qed.

(** Every operation keeps the keys unique, as a dictionary does. *)
Lemma keys_unique_kept c :
  keys_unique c ->
  (forall key now r c', get c key now = Ok (r, c') -> keys_unique c') /\
  (forall key value now c', set c key value now = Ok c' -> keys_unique c') /\
  (forall now, keys_unique (snd (clear_expired c now))) /\
  keys_unique (clear c).
Proof.
  unfold keys_unique. intro Hu. repeat split.
  - intros key now r c'. unfold get.
    destruct (od_lookup key (cache c)) as [[v ts]|] eqn:Hl.
    + destruct (Qltb _ _).
      * unfold od_move_to_end. rewrite Hl. simpl. intro H. injection H as _ <-.
        simpl. apply moved_to_end_unique. exact Hu.
      * intro H. injection H as _ <-. simpl. apply od_delete_unique. exact Hu.
    + intro H. injection H as _ <-. exact Hu.
  - intros key value now c'. unfold set.
    destruct (evict (max_size c) (cache c)) as [d|] eqn:Ev; simpl; [|discriminate].
    unfold od_move_to_end. rewrite price_cache_facts.od_lookup_setitem. simpl.
    intro H. injection H as <-. simpl. apply moved_to_end_unique, od_setitem_unique.
    clear -Hu Ev. revert Ev. generalize (max_size c). intro mx.
    induction (cache c) as [|kv t IH]; cbn [evict].
    + destruct (_ <? mx); [|discriminate]. intro H. injection H as <-. exact Hu.
    + destruct (_ <? mx).
      * intro H. injection H as <-. exact Hu.
      * inversion Hu; subst. auto.
  - intro now. simpl. rewrite fold_delete_filter.
    clear -Hu. induction (cache c) as [|kv t IH]; simpl; [constructor|].
    inversion Hu as [|? ? Hnot Ht]; subst.
    destruct (negb _); simpl; [|auto]. constructor; [|auto].
    intro Hin. apply Hnot. apply in_map_iff in Hin as (kv' & <- & Hin).
    apply filter_In in Hin as [Hin _]. apply in_map. exact Hin.
  - simpl. constructor.
Qed.

End Unique.

(** *** Counters *)


(** *** Keys *)

Lemma colon_free_app_eq (a b r1 r2 : string) :
  colon_free a = true -> colon_free b = true ->
  String.append a (String ":" r1) = String.append b (String ":" r2) ->
  a = b /\ r1 = r2.
Proof.
  revert b. induction a as [|x a IH]; intros [|y b] Ha Hb; simpl in *.
  - intro H. injection H as ->. auto.
  - intro H. injection H as <- _. simpl in Hb. discriminate.
  - intro H. injection H as -> _. simpl in Ha. discriminate.
  - intro H. injection H as -> H.
    apply andb_true_iff in Ha as [_ Ha]. apply andb_true_iff in Hb as [_ Hb].
    destruct (IH b Ha Hb H) as [-> ->]. auto.
Qed.

Lemma colon_free_no_colon (a b r : string) :
  colon_free a = true -> String.append b (String ":" r) <> a.
Proof.
  revert a. induction b as [|y b IH]; intros [|x a] Ha; simpl; try discriminate.
  - intro H. injection H as <- _. simpl in Ha. discriminate.
  - intro H. injection H as _ H. apply andb_true_iff in Ha as [_ Ha].
    exact (IH a Ha H).
Qed.

Lemma make_key_cons (x y : string) (l : list string) :
  make_key (x :: y :: l) = String.append x (String ":" (make_key (y :: l))).
Proof. reflexivity. Qed.

Lemma make_key_parts_equal (xs ys : list string) :
  xs <> [] -> ys <> [] ->
  forallb colon_free xs = true -> forallb colon_free ys = true ->
  make_key xs = make_key ys ->
  xs = ys.
Proof.
  revert ys. induction xs as [|x xs IH]; intros ys Hx Hy Hcx Hcy; [congruence|].
  destruct ys as [|y ys]; [congruence|].
  simpl in Hcx, Hcy. apply andb_true_iff in Hcx as [Hx0 Hcx].
  apply andb_true_iff in Hcy as [Hy0 Hcy].
  destruct xs as [|x' xs]; destruct ys as [|y' ys].
  - change (make_key [x]) with x. change (make_key [y]) with y.
    intros ->. reflexivity.
  - rewrite (make_key_cons y y' ys). change (make_key [x]) with x.
    intro H. symmetry in H. exfalso. exact (colon_free_no_colon x y _ Hx0 H).
  - rewrite (make_key_cons x x' xs). change (make_key [y]) with y.
    intro H. exfalso. exact (colon_free_no_colon y x _ Hy0 H).
  - rewrite !make_key_cons. intro H.
    destruct (colon_free_app_eq x y _ _ Hx0 Hy0 H) as [-> Hrest].
    f_equal. apply IH; try assumption; discriminate.
Qed.

(** X8.  [make_key] is injective on non-empty argument lists whose parts
    contain no colon: two such lists with the same key are the same
    list. *)
Theorem make_key_injective (xs ys : list string) :
  xs <> [] -> ys <> [] ->
  forallb colon_free xs = true -> forallb colon_free ys = true ->
  make_key xs = make_key ys ->
  xs = ys.
Proof.
  intros. eapply make_key_parts_equal; eassumption.
Qed.

Lemma make_key_injective_witness :
  ["price"; "mintA"; "jupiter"] = ["price"; "mintA"; "jupiter"].
Proof.
  apply (make_key_injective ["price"; "mintA"; "jupiter"] ["price"; "mintA"; "jupiter"]);
    try discriminate; reflexivity.
Defined.

(** *** [MultiLevelCache] *)

(** X9.  A price stored with [set_price] for a (mint, venue) pair is read
    back by [get_price] for that pair while it is younger than the TTL of
    the price cache, and neither call touches the quote, token and pool
    caches.  Two pairs of colon-free strings share a key only if they are
    the same pair. *)
Theorem multi_level_price_round_trip {D T P : Type} (m : MultiLevelCache D T P)
  (token_mint dex : string) (price_ t0 now : Q) :
  1 <= max_size (price m) ->
  (now - t0 < inject_Z (ttl (price m)))%Q ->
  (exists m1 m2,
      set_price m token_mint dex price_ t0 = Ok m1 /\
      get_price m1 token_mint dex now = Ok (Some price_, m2) /\
      quote m2 = quote m /\ token_info m2 = token_info m /\ pool_info m2 = pool_info m) /\
  (forall mint' dex',
      colon_free token_mint = true -> colon_free dex = true ->
      colon_free mint' = true -> colon_free dex' = true ->
      price_key token_mint dex = price_key mint' dex' ->
      token_mint = mint' /\ dex = dex').
Proof.
  intros Hmax Hfresh. split.
  - destruct (set_get_round_trip (price m) (price_key token_mint dex)
                price_ t0 now Hmax Hfresh) as (c1 & c2 & Hs & Hg & _).
    unfold set_price. rewrite Hs. cbn [rbind].
    eexists. eexists. split; [reflexivity|].
    unfold get_price. cbn [price]. rewrite Hg. cbn [rbind fst snd].
    repeat split.
  - intros mint' dex' H1 H2 H3 H4 Hk. unfold price_key in Hk.
    apply make_key_parts_equal in Hk; try discriminate.
    + injection Hk as -> ->. auto.
    + simpl. rewrite H1, H2. reflexivity.
    + simpl. rewrite H3, H4. reflexivity.
Qed.

Lemma multi_level_price_round_trip_witness :
  (exists m1 m2,
      set_price (new_multi_level_cache unit unit unit) "mintA" "jupiter" 1%Q 0%Q = Ok m1 /\
      get_price m1 "mintA" "jupiter" 2%Q = Ok (Some 1%Q, m2) /\
      quote m2 = quote (new_multi_level_cache unit unit unit) /\
      token_info m2 = token_info (new_multi_level_cache unit unit unit) /\
      pool_info m2 = pool_info (new_multi_level_cache unit unit unit)) /\
  (forall mint' dex',
      colon_free "mintA" = true -> colon_free "jupiter" = true ->
      colon_free mint' = true -> colon_free dex' = true ->
      price_key "mintA" "jupiter" = price_key mint' dex' ->
      "mintA" = mint' /\ "jupiter" = dex').
Proof.
  apply (multi_level_price_round_trip (new_multi_level_cache unit unit unit)
           "mintA" "jupiter" 1%Q 0%Q 2%Q).
  - simpl. lia.
  - reflexivity.
Defined.

End price_cache_ext_facts.

(** ** More on [src/arbitrage_bot.py] *)

Module bot_ext_facts.
Import arbitrage_bot arbitrage_bot_ext samples.

(** *** [RateLimiter] *)

Lemma Qmin_le_l (a b : Q) : (Qmin a b <= a)%Q.
Proof.
  unfold Qmin. destruct (Qltb b a) eqn:E.
  - apply Qltb_lt in E. apply Qlt_le_weak. exact E.
  - apply Qle_refl.
Qed.

Lemma Qmin_le_r (a b : Q) : (Qmin a b <= b)%Q.
Proof.
  unfold Qmin. destruct (Qltb b a) eqn:E.
  - apply Qle_refl.
  - apply Qltb_ge in E. exact E.
Qed.

Lemma Qmin_glb (a b x : Q) : (x <= a)%Q -> (x <= b)%Q -> (x <= Qmin a b)%Q.
Proof. intros Ha Hb. unfold Qmin. destruct (Qltb b a); assumption. Qed.

Lemma Qmin_r_eq (a b : Q) : (b <= a)%Q -> (Qmin a b == b)%Q.
Proof.
  intro H. apply Qle_antisym; [apply Qmin_le_r|].
  apply Qmin_glb; [exact H | apply Qle_refl].
Qed.

Lemma decimal_div_pos (a b : Q) : (0 < b)%Q -> decimal_div a b = Ok (a / b)%Q.
Proof.
  intro Hb. unfold decimal_div. destruct (Qeq_bool b 0) eqn:E; [|reflexivity].
  apply Qeq_bool_iff in E. rewrite E in Hb. exfalso. exact (Qlt_irrefl 0 Hb).
Qed.

(** X10.  With a positive rate, a burst of at least one and a clock that
    does not run backwards, [acquire] keeps the bucket between 0 and
    [burst]: it never sleeps longer than one token period [1 / rate],
    leaves between 0 and [burst - 1] tokens and dates the bucket at the
    clock reading of the call. *)
Theorem acquire_keeps_bucket_in_range (rl : RateLimiter) (now : Q) :
  (0 < calls_per_second rl)%Q ->
  (1 <= burst rl)%Q ->
  (0 <= tokens_ rl <= burst rl)%Q ->
  (last_update rl <= now)%Q ->
  exists sleep_time rl',
    acquire rl now = Ok (sleep_time, rl') /\
    (0 <= sleep_time <= 1 / calls_per_second rl)%Q /\
    (0 <= tokens_ rl' <= burst rl - 1)%Q /\
    last_update rl' = now /\
    calls_per_second rl' = calls_per_second rl /\ burst rl' = burst rl.
Proof.
  intros Hrate Hburst [Hlo Hhi] Hclock. unfold acquire.
  set (refilled := Qmin (burst rl) (tokens_ rl + (now - last_update rl) * calls_per_second rl)).
  assert (Hgain : (0 <= (now - last_update rl) * calls_per_second rl)%Q).
  { apply Qmult_le_0_compat; [|apply Qlt_le_weak; exact Hrate].
    setoid_replace 0%Q with (last_update rl - last_update rl)%Q by ring.
    apply Qplus_le_compat; [exact Hclock | apply Qle_refl]. }
  assert (Hr0 : (0 <= refilled)%Q).
  { apply Qmin_glb.
    - apply Qle_trans with (y := 1%Q); [discriminate | exact Hburst].
    - setoid_replace 0%Q with (0 + 0)%Q by ring. apply Qplus_le_compat; assumption. }
  assert (Hr1 : (refilled <= burst rl)%Q) by apply Qmin_le_l.
  destruct (Qltb refilled 1) eqn:E.
  - apply Qltb_lt in E. rewrite (decimal_div_pos _ _ Hrate). simpl.
    eexists. eexists. split; [reflexivity|]. cbn [tokens_ last_update calls_per_second burst].
    repeat split.
    + apply Qle_shift_div_l; [exact Hrate|]. rewrite Qmult_0_l.
      setoid_replace 0%Q with (refilled - refilled)%Q by ring.
      apply Qplus_le_compat; [apply Qlt_le_weak; exact E | apply Qle_refl].
    + apply Qle_shift_div_r; [exact Hrate|].
      setoid_replace (1 / calls_per_second rl * calls_per_second rl)%Q with 1%Q
        by (field; intro H0; rewrite H0 in Hrate; exact (Qlt_irrefl 0 Hrate)).
      setoid_replace 1%Q with (1 - 0)%Q at 2 by ring.
      apply Qplus_le_compat; [apply Qle_refl|]. apply Qopp_le_compat. exact Hr0.
    + discriminate.
    + setoid_replace (1 - 1)%Q with (1 - 1 + 0)%Q by ring.
      setoid_replace (burst rl - 1)%Q with (1 - 1 + (burst rl - 1))%Q by ring.
      apply Qplus_le_compat; [apply Qle_refl|].
      setoid_replace 0%Q with (1 - 1)%Q by ring.
      apply Qplus_le_compat; [exact Hburst | apply Qle_refl].
  - apply Qltb_ge in E. eexists. eexists. split; [reflexivity|].
    cbn [tokens_ last_update calls_per_second burst]. repeat split.
    + discriminate.
    + apply Qle_shift_div_l; [exact Hrate|]. rewrite Qmult_0_l. discriminate.
    + setoid_replace 0%Q with (1 - 1)%Q by ring.
      apply Qplus_le_compat; [exact E | apply Qle_refl].
    + apply Qplus_le_compat; [exact Hr1 | apply Qle_refl].
Qed.

Lemma acquire_keeps_bucket_in_range_witness :
  exists sleep_time rl',
    acquire samples_ext.three_token_limiter 1%Q = Ok (sleep_time, rl') /\
    (0 <= sleep_time <= 1 / calls_per_second samples_ext.three_token_limiter)%Q /\
    (0 <= tokens_ rl' <= burst samples_ext.three_token_limiter - 1)%Q /\
    last_update rl' = 1%Q /\
    calls_per_second rl' = calls_per_second samples_ext.three_token_limiter /\
    burst rl' = burst samples_ext.three_token_limiter.
Proof.
  apply (acquire_keeps_bucket_in_range samples_ext.three_token_limiter 1%Q).
  - reflexivity.
  - discriminate.
  - split; discriminate.
  - discriminate.
Defined.

(** A call that finds at least one token at the instant of the last update
    takes it without sleeping. *)
Lemma acquire_with_token (rl : RateLimiter) :
  (1 <= tokens_ rl)%Q -> (tokens_ rl <= burst rl)%Q ->
  exists rl',
    acquire rl (last_update rl) = Ok (0%Q, rl') /\
    (tokens_ rl' == tokens_ rl - 1)%Q /\
    last_update rl' = last_update rl /\
    calls_per_second rl' = calls_per_second rl /\ burst rl' = burst rl.
Proof.
  intros H1 Hb. unfold acquire.
  set (x := (tokens_ rl + (last_update rl - last_update rl) * calls_per_second rl)%Q).
  assert (Hx : (x == tokens_ rl)%Q) by (unfold x; ring).
  assert (Hmin : (Qmin (burst rl) x == tokens_ rl)%Q).
  { rewrite <- Hx. apply Qmin_r_eq. rewrite Hx. exact Hb. }
  assert (E : Qltb (Qmin (burst rl) x) 1 = false).
  { apply Qltb_ge. rewrite Hmin. exact H1. }
  rewrite E. eexists. split; [reflexivity|].
  cbn [tokens_ last_update calls_per_second burst]. rewrite Hmin.
  repeat split; reflexivity.
Qed.

(** A call that finds the bucket empty at the instant of the last update
    sleeps one token period. *)
Lemma acquire_when_empty (rl : RateLimiter) :
  (0 < calls_per_second rl)%Q -> (1 <= burst rl)%Q -> (tokens_ rl == 0)%Q ->
  exists sleep_time,
    acquire rl (last_update rl)
    = Ok (sleep_time,
          mkRateLimiter (calls_per_second rl) (burst rl) (1 - 1)%Q (last_update rl)) /\
    (sleep_time == 1 / calls_per_second rl)%Q.
Proof.
  intros Hrate Hburst H0. unfold acquire.
  set (x := (tokens_ rl + (last_update rl - last_update rl) * calls_per_second rl)%Q).
  assert (Hx : (x == 0)%Q) by (unfold x; rewrite H0; ring).
  assert (Hmin : (Qmin (burst rl) x == 0)%Q).
  { rewrite <- Hx. apply Qmin_r_eq. rewrite Hx.
    apply Qle_trans with (y := 1%Q); [discriminate | exact Hburst]. }
  assert (E : Qltb (Qmin (burst rl) x) 1 = true).
  { apply Qltb_lt. rewrite Hmin. reflexivity. }
  rewrite E, (decimal_div_pos _ _ Hrate). simpl.
  eexists. split; [reflexivity|]. rewrite Hmin.
  field. intro Hz. rewrite Hz in Hrate. exact (Qlt_irrefl 0 Hrate).
Qed.

(** X11.  A bucket holding [n] tokens lets [n] calls made at the same
    instant through without any sleep; the call after them sleeps exactly
    one token period [1 / rate]. *)
Theorem burst_passes_then_one_period_wait (n : nat) (rl : RateLimiter) :
  (0 < calls_per_second rl)%Q ->
  (1 <= burst rl)%Q ->
  (tokens_ rl == inject_Z (Z.of_nat n))%Q ->
  (tokens_ rl <= burst rl)%Q ->
  exists rl' sleep_time rl'',
    acquire_repeatedly rl (last_update rl) n = Ok (repeat 0%Q n, rl') /\
    acquire rl' (last_update rl) = Ok (sleep_time, rl'') /\
    (sleep_time == 1 / calls_per_second rl)%Q.
Proof.
  revert rl. induction n as [|n IH]; intros rl Hrate Hburst Htok Hcap.
  - destruct (acquire_when_empty rl Hrate Hburst Htok) as (s & Ha & Hs).
    exists rl, s. eexists. repeat split; eassumption.
  - assert (H1 : (1 <= tokens_ rl)%Q).
    { rewrite Htok. rewrite <- (Zle_Qle 1). lia. }
    destruct (acquire_with_token rl H1 Hcap) as (rl1 & Ha & Ht & Hu & Hc & Hb).
    assert (Htok1 : (tokens_ rl1 == inject_Z (Z.of_nat n))%Q).
    { rewrite Ht, Htok. rewrite Nat2Z.inj_succ. unfold Z.succ.
      rewrite inject_Z_plus. ring. }
    assert (Hcap1 : (tokens_ rl1 <= burst rl1)%Q).
    { rewrite Ht, Hb. apply Qle_trans with (y := tokens_ rl); [|exact Hcap].
      setoid_replace (tokens_ rl)%Q with (tokens_ rl - 0)%Q at 2 by ring.
      apply Qplus_le_compat; [apply Qle_refl | discriminate]. }
    rewrite <- Hc in Hrate. rewrite <- Hb in Hburst.
    destruct (IH rl1 Hrate Hburst Htok1 Hcap1) as (rl' & s & rl'' & Hrep & Hnext & Hs).
    rewrite Hu in Hrep, Hnext. rewrite Hc in Hs.
    exists rl', s, rl''. split; [|split; assumption].
    simpl. rewrite Ha. simpl. rewrite Hrep. reflexivity.
Qed.

(** The limiter of the test suite: two calls a second, a burst of three. *)
Lemma burst_passes_then_one_period_wait_witness :
  exists rl' sleep_time rl'',
    acquire_repeatedly samples_ext.three_token_limiter 0%Q 3
    = Ok (repeat 0%Q 3, rl') /\
    acquire rl' 0%Q = Ok (sleep_time, rl'') /\
    (sleep_time == 1 / 2)%Q.
Proof.
  apply (burst_passes_then_one_period_wait 3 samples_ext.three_token_limiter);
    try reflexivity; discriminate.
Defined.



(** *** The price cache of the bot and the quote operations *)

Lemma dict_get_cons {A} (k : string) (kv : string * A) (d : list (string * A)) :
  dict_get k (kv :: d) = if String.eqb k (fst kv) then Some (snd kv) else dict_get k d.
Proof. unfold dict_get. simpl. destruct (String.eqb k (fst kv)); reflexivity. Qed.

Lemma dict_get_set_same {A} (k : string) (a : A) (d : list (string * A)) :
  dict_get k (dict_set k a d) = Some a.
Proof.
  induction d as [|kv t IH]; simpl.
  - rewrite dict_get_cons. simpl. rewrite String.eqb_refl. reflexivity.
  - destruct (String.eqb k (fst kv)) eqn:E; rewrite dict_get_cons; simpl.
    + rewrite String.eqb_refl. reflexivity.
    + rewrite E. exact IH.
Qed.

Lemma dict_get_del_same {A} (k : string) (d : list (string * A)) :
  dict_get k (dict_del k d) = None.
Proof.
  induction d as [|kv t IH]; [reflexivity|]. simpl.
  destruct (String.eqb k (fst kv)) eqn:E; simpl; [exact IH|].
  rewrite dict_get_cons, E. exact IH.
Qed.

Lemma cache_get_ttl c key now : ttl (snd (cache_get c key now)) = ttl c.
Proof.
  unfold cache_get. destruct (dict_get key (cache c)) as [[v ts]|]; [|reflexivity].
  destruct (Qltb _ _); reflexivity.
Qed.

(** After a miss the key is not in the cache. *)
Lemma cache_get_miss c key now c' :
  cache_get c key now = (None, c') -> dict_get key (cache c') = None /\ ttl c' = ttl c.
Proof.
  unfold cache_get. destruct (dict_get key (cache c)) as [[v ts]|] eqn:E.
  - destruct (Qltb _ _); [discriminate|]. intro H. injection H as <-.
    split; [apply dict_get_del_same | reflexivity].
  - intro H. injection H as <-. auto.
Qed.

(** Reading a key just written, within the TTL. *)
Lemma cache_get_after_set c key value t0 now :
  (now - t0 < inject_Z (ttl c))%Q ->
  cache_get (cache_set c key value t0) key now = (Some value, cache_set c key value t0).
Proof.
  intro H. unfold cache_get, cache_set. cbn [cache ttl].
  rewrite dict_get_set_same. apply Qltb_lt in H. rewrite H. reflexivity.
Qed.

(** A fetch that misses the cache and returns a quote has stored it. *)
Lemma jupiter_fetch_stores c t clk resp q c1 tr :
  fst (cache_get c (String.append "jupiter_" (mint t)) (t_get clk)) = None ->
  get_jupiter_price c t clk resp = (Some q, c1, tr) ->
  exists c0, c1 = cache_set c0 (String.append "jupiter_" (mint t)) q (t_set clk) /\
             ttl c0 = ttl c.
Proof.
  unfold get_jupiter_price. intro Hmiss.
  pose proof (cache_get_ttl c (String.append "jupiter_" (mint t)) (t_get clk)) as Httl.
  destruct (cache_get c _ (t_get clk)) as [[cached|] c0]; [discriminate|].
  simpl in Httl. destruct resp as [e|status body]; [discriminate|].
  destruct (negb (status =? 200)); [discriminate|].
  destruct (rbind body _) as [r|e]; [|discriminate].
  intro H. injection H as <- <- _. exists c0. auto.
Qed.

Lemma raydium_fetch_stores c t clk resp q c1 tr :
  fst (cache_get c (String.append "raydium_" (mint t)) (t_get clk)) = None ->
  get_raydium_price c t clk resp = (Some q, c1, tr) ->
  exists c0, c1 = cache_set c0 (String.append "raydium_" (mint t)) q (t_set clk) /\
             ttl c0 = ttl c.
Proof.
  unfold get_raydium_price. intro Hmiss.
  pose proof (cache_get_ttl c (String.append "raydium_" (mint t)) (t_get clk)) as Httl.
  destruct (cache_get c _ (t_get clk)) as [[cached|] c0]; [discriminate|].
  simpl in Httl. destruct resp as [e|status body]; [discriminate|].
  destruct (negb (status =? 200)); [discriminate|].
  destruct (rbind body _) as [[r|]|e]; try discriminate.
  intro H. injection H as <- <- _. exists c0. auto.
Qed.

(** X13.  A quote fetched from a venue is served from the cache for as long
    as it is younger than the TTL: the next call for the same token returns
    the same quote without any call to the venue, whatever the venue would
    answer, and leaves the cache as it is.  This holds for Jupiter and for
    Raydium. *)
Theorem quote_served_from_cache_within_ttl (c : PriceCache) (t : Token)
  (clk clk' : QuoteClock) :
  (t_get clk' - t_set clk < inject_Z (ttl c))%Q ->
  (forall resp resp' q c1 tr,
      fst (cache_get c (String.append "jupiter_" (mint t)) (t_get clk)) = None ->
      get_jupiter_price c t clk resp = (Some q, c1, tr) ->
      get_jupiter_price c1 t clk' resp' = (Some q, c1, [])) /\
  (forall resp resp' q c1 tr,
      fst (cache_get c (String.append "raydium_" (mint t)) (t_get clk)) = None ->
      get_raydium_price c t clk resp = (Some q, c1, tr) ->
      get_raydium_price c1 t clk' resp' = (Some q, c1, [])).
Proof.
  intro Hfresh. split; intros resp resp' q c1 tr Hmiss Hget.
  - destruct (jupiter_fetch_stores c t clk resp q c1 tr Hmiss Hget) as (c0 & -> & Httl).
    unfold get_jupiter_price. rewrite cache_get_after_set by (rewrite Httl; exact Hfresh).
    reflexivity.
  - destruct (raydium_fetch_stores c t clk resp q c1 tr Hmiss Hget) as (c0 & -> & Httl).
    unfold get_raydium_price. rewrite cache_get_after_set by (rewrite Httl; exact Hfresh).
    reflexivity.
Qed.

Lemma quote_served_from_cache_within_ttl_witness :
  (forall resp resp' q c1 tr,
      fst (cache_get (mkPriceCache [] 3) (String.append "jupiter_" (mint test_token)) 0%Q)
      = None ->
      get_jupiter_price (mkPriceCache [] 3) test_token (mkQuoteClock 0 0) resp
      = (Some q, c1, tr) ->
      get_jupiter_price c1 test_token (mkQuoteClock 2 2) resp' = (Some q, c1, [])) /\
  (forall resp resp' q c1 tr,
      fst (cache_get (mkPriceCache [] 3) (String.append "raydium_" (mint test_token)) 0%Q)
      = None ->
      get_raydium_price (mkPriceCache [] 3) test_token (mkQuoteClock 0 0) resp
      = (Some q, c1, tr) ->
      get_raydium_price c1 test_token (mkQuoteClock 2 2) resp' = (Some q, c1, [])).
Proof.
  apply (quote_served_from_cache_within_ttl (mkPriceCache [] 3) test_token
           (mkQuoteClock 0 0) (mkQuoteClock 2 2)).
  reflexivity.
Defined.

(** X14.  An unavailable quote is never cached: after a call that returned
    nothing, the next call for the same token asks the venue again, at any
    time and whatever the venue answers.  This holds for Jupiter and for
    Raydium. *)
Theorem unavailable_quote_is_fetched_again (c : PriceCache) (t : Token)
  (clk clk' : QuoteClock) :
  (forall resp resp' c' tr,
      get_jupiter_price c t clk resp = (None, c', tr) ->
      snd (get_jupiter_price c' t clk' resp')
      = [RateLimit LimJupiter; QuoteFetch JUPITER (mint t)]) /\
  (forall resp resp' c' tr,
      get_raydium_price c t clk resp = (None, c', tr) ->
      snd (get_raydium_price c' t clk' resp')
      = [RateLimit LimRaydium; QuoteFetch RAYDIUM (mint t)]).
Proof.
  split; intros resp resp' c' tr.
  - unfold get_jupiter_price at 1.
    destruct (cache_get c _ (t_get clk)) as [[cached|] c0] eqn:Hc; [discriminate|].
    apply cache_get_miss in Hc as [Habsent _].
    assert (Hc0 : c' = c0 -> snd (get_jupiter_price c' t clk' resp')
                  = [RateLimit LimJupiter; QuoteFetch JUPITER (mint t)]).
    { intros ->. unfold get_jupiter_price, cache_get. rewrite Habsent.
      destruct resp' as [e|status body]; [reflexivity|].
      destruct (negb (status =? 200)); [reflexivity|].
      destruct (rbind body _); reflexivity. }
    destruct resp as [e|status body].
    + intro H. injection H as <- _. auto.
    + destruct (negb (status =? 200)).
      * intro H. injection H as <- _. auto.
      * destruct (rbind body _); [discriminate|]. intro H. injection H as <- _. auto.
  - unfold get_raydium_price at 1.
    destruct (cache_get c _ (t_get clk)) as [[cached|] c0] eqn:Hc; [discriminate|].
    apply cache_get_miss in Hc as [Habsent _].
    assert (Hc0 : c' = c0 -> snd (get_raydium_price c' t clk' resp')
                  = [RateLimit LimRaydium; QuoteFetch RAYDIUM (mint t)]).
    { intros ->. unfold get_raydium_price, cache_get. rewrite Habsent.
      destruct resp' as [e|status body]; [reflexivity|].
      destruct (negb (status =? 200)); [reflexivity|].
      destruct (rbind body _) as [[r|]|]; reflexivity. }
    destruct resp as [e|status body].
    + intro H. injection H as <- _. auto.
    + destruct (negb (status =? 200)).
      * intro H. injection H as <- _. auto.
      * destruct (rbind body _) as [[r|]|]; [discriminate| |];
          intro H; injection H as <- _; auto.
Qed.

Lemma fold_dict_del_filter {A} (ks : list string) (d : list (string * A)) :
  fold_left (fun d k => dict_del k d) ks d
  = filter (fun kv => negb (existsb (String.eqb (fst kv)) ks)) d.
Proof.
  revert d. induction ks as [|k ks IH]; intro d; simpl.
  - symmetry. apply forallb_filter_id. apply forallb_forall. reflexivity.
  - rewrite IH. unfold dict_del. rewrite price_cache_ext_facts.filter_filter.
    apply filter_ext. intro kv. rewrite negb_orb, (String.eqb_sym k). reflexivity.
Qed.

(** X15.  The sweep of the bot's price cache leaves no entry that is TTL
    old or older at the time of the sweep, and adds none: what remains are
    entries of the cache, all younger than the TTL. *)
Theorem cache_sweep_leaves_only_fresh_entries (c : PriceCache) (current_time : Q) :
  ttl (cache_clear_expired c current_time) = ttl c /\
  Forall (fun kv => In kv (cache c) /\
                    (current_time - snd (snd kv) < inject_Z (ttl c))%Q)
         (cache (cache_clear_expired c current_time)).
Proof.
  split; [reflexivity|]. unfold cache_clear_expired. cbn [cache].
  rewrite fold_dict_del_filter. apply Forall_forall. intros kv Hin.
  apply filter_In in Hin as [Hin Hkeep]. split; [exact Hin|].
  apply Qleb_gt. destruct (Qleb _ _) eqn:E; [|reflexivity]. exfalso.
  apply negb_true_iff in Hkeep.
  assert (Hex : existsb (String.eqb (fst kv))
                  (map fst (filter (fun kv0 => Qleb (inject_Z (ttl c))
                                                 (current_time - snd (snd kv0)))
                                   (cache c))) = true).
  { apply existsb_exists. exists (fst kv). split; [|apply String.eqb_refl].
    apply in_map. apply filter_In. split; assumption. }
  congruence.
Qed.

(** *** Price impact *)

Lemma impact_small (t : Token) (d : DEX) (s : Q) :
  (s <= inject_Z 10000)%Q -> calculate_price_impact t d s = (1 # 1000)%Q.
Proof.
  intro H. unfold calculate_price_impact. apply Qltb_ge in H. rewrite H. reflexivity.
Qed.

Lemma impact_large (t : Token) (d : DEX) (s : Q) :
  (inject_Z 10000 < s)%Q ->
  calculate_price_impact t d s = ((1 # 1000) * (s / inject_Z 10000))%Q.
Proof.
  intro H. unfold calculate_price_impact. apply Qltb_lt in H. rewrite H. reflexivity.
Qed.

(** X16.  The estimated price impact does not depend on the token or the
    venue, is never below 0.1%, and never decreases when the size grows. *)
Theorem price_impact_monotone (t t' : Token) (d d' : DEX) (s1 s2 : Q) :
  (s1 <= s2)%Q ->
  calculate_price_impact t d s1 = calculate_price_impact t' d' s1 /\
  (1 # 1000 <= calculate_price_impact t d s1)%Q /\
  (calculate_price_impact t d s1 <= calculate_price_impact t' d' s2)%Q.
Proof.
  intro Hle. split; [reflexivity|].
  destruct (Qlt_le_dec (inject_Z 10000) s1) as [H1|H1];
    destruct (Qlt_le_dec (inject_Z 10000) s2) as [H2|H2].
  - rewrite !impact_large by assumption. unfold Qdiv.
    change (/ inject_Z 10000)%Q with (1 # 10000)%Q.
    change (inject_Z 10000) with (10000 # 1)%Q in *. split; lra.
  - exfalso. apply (Qlt_irrefl s1). apply Qle_lt_trans with (y := s2); [exact Hle|].
    apply Qle_lt_trans with (y := inject_Z 10000); assumption.
  - rewrite impact_small by assumption. rewrite impact_large by assumption.
    unfold Qdiv. change (/ inject_Z 10000)%Q with (1 # 10000)%Q.
    change (inject_Z 10000) with (10000 # 1)%Q in *. split; lra.
  - rewrite !impact_small by assumption. split; apply Qle_refl.
Qed.

Lemma price_impact_monotone_witness :
  calculate_price_impact test_token JUPITER (inject_Z 5000)
  = calculate_price_impact test_token RAYDIUM (inject_Z 5000) /\
  (1 # 1000 <= calculate_price_impact test_token JUPITER (inject_Z 5000))%Q /\
  (calculate_price_impact test_token JUPITER (inject_Z 5000)
   <= calculate_price_impact test_token RAYDIUM (inject_Z 50000))%Q.
Proof.
  apply (price_impact_monotone test_token test_token JUPITER RAYDIUM
           (inject_Z 5000) (inject_Z 50000)).
  discriminate.
Defined.

(** Every rung of the ladder has a combined impact of 0.1% + 0.1%. *)
Lemma ladder_impact (t : Token) (bd sd : DEX) (x : Z) :
  In x trade_sizes ->
  total_impact_for t bd sd (inject_Z x) = ((1 # 1000) + (1 # 1000))%Q.
Proof.
  intro Hin. unfold total_impact_for.
  assert (H : (inject_Z x <= inject_Z 10000)%Q).
  { rewrite <- Zle_Qle. unfold trade_sizes in Hin. simpl in Hin.
    destruct Hin as [<-|[<-|[<-|[<-|[<-|[]]]]]]; lia. }
  rewrite !impact_small by exact H. reflexivity.
Qed.

(** The candidate at which the sizing loop stopped for an opportunity. *)
Lemma discovered_candidate b o :
  discovered b o ->
  exists x available_liquidity,
    In x trade_sizes /\ size_usd o = inject_Z x /\
    (inject_Z x <= Qmin (max_position_size b) (available_liquidity * (1 # 10)))%Q /\
    price_impact o = ((1 # 1000) + (1 # 1000))%Q /\
    (price_impact o <= max_price_impact b)%Q /\
    (min_profit_usd b <= expected_profit o)%Q.
Proof.
  intros (jd & rd & ratio & al & _ & _ & _ & Hloop).
  apply scan_facts.size_loop_sound in Hloop
    as (pre & x & post & Hsplit & Hs & _ & Hmax & Himp & Hcap & _ & Hmin).
  assert (Hin : In x trade_sizes).
  { rewrite Hsplit. apply in_or_app. right. left. reflexivity. }
  exists x, al. repeat split; try assumption.
  rewrite Himp, Hs. apply ladder_impact. exact Hin.
Qed.

(** X17.  The impact cap is all or nothing on the ladder: every candidate
    size has a combined impact of 0.2%, so a bot whose [max_price_impact]
    is below 0.2% never finds an opportunity. *)
Theorem impact_cap_below_ladder_impact_finds_nothing (b : ProductionArbitrageBot)
  (envs : nat -> ScanEnv) :
  (max_price_impact b < 2 # 1000)%Q ->
  opportunities (find_arbitrage_opportunities b envs) = [].
Proof.
  intro Hcap. destruct (scan_facts.find_spec b envs) as (_ & _ & Hd).
  destruct (opportunities (find_arbitrage_opportunities b envs)) as [|o l]; [reflexivity|].
  exfalso. inversion Hd as [|? ? Ho _]; subst.
  destruct (discovered_candidate b o Ho) as (x & al & _ & _ & _ & Himp & Hle & _).
  rewrite Himp in Hle. apply (Qlt_irrefl (max_price_impact b)).
  apply Qlt_le_trans with (y := (2 # 1000)%Q); [exact Hcap|].
  apply Qle_trans with (y := ((1 # 1000) + (1 # 1000))%Q); [discriminate | exact Hle].
Qed.

(** The test bot with an impact cap of 0.1%. *)
Lemma impact_cap_below_ladder_impact_finds_nothing_witness :
  opportunities
    (find_arbitrage_opportunities
       (mkBot (usdc_mint test_bot) (tokens test_bot) (price_cache test_bot)
              (min_profit_usd test_bot) (max_position_size test_bot) (1 # 1000)
              (priority_fee test_bot) (max_daily_loss test_bot) (daily_loss test_bot)
              (use_jito test_bot))
       two_percent_env) = [].
Proof.
  apply (impact_cap_below_ladder_impact_finds_nothing
           (mkBot (usdc_mint test_bot) (tokens test_bot) (price_cache test_bot)
              (min_profit_usd test_bot) (max_position_size test_bot) (1 # 1000)
              (priority_fee test_bot) (max_daily_loss test_bot) (daily_loss test_bot)
              (use_jito test_bot))
           two_percent_env).
  reflexivity.
Defined.

(** *** The shape of an opportunity *)

Lemma discovered_venues_and_spread b o :
  discovered b o ->
  ((buy_dex o = JUPITER /\ sell_dex o = RAYDIUM) \/
   (buy_dex o = RAYDIUM /\ sell_dex o = JUPITER)) /\
  (1 # 2 <= (sell_price o - buy_price o) / buy_price o * inject_Z 100)%Q.
Proof.
  intros ([jp jl] & [rp rl] & ratio & al & Hdiv & Hpct & Hdir & _).
  cbn [fst] in Hdiv. apply Qltb_ge in Hpct.
  apply scan_facts.decimal_div_ok in Hdiv as [_ ->].
  unfold direction in Hdir. unfold Qmin in Hpct.
  destruct (Qltb jp rp) eqn:Hlt.
  - injection Hdir as <- <- <- <- _. split; [auto|].
    apply Qltb_lt in Hlt.
    assert (Hge : Qltb rp jp = false) by (apply Qltb_ge, Qlt_le_weak; exact Hlt).
    rewrite Hge in Hpct.
    assert (Habs : (Qabs (jp - rp) == rp - jp)%Q).
    { rewrite <- Qabs_opp. setoid_replace (- (jp - rp))%Q with (rp - jp)%Q by ring.
      apply Qabs_pos. lra. }
    rewrite Habs in Hpct. exact Hpct.
  - injection Hdir as <- <- <- <- _. split; [auto|].
    apply Qltb_ge in Hlt.
    assert (Habs : (Qabs (jp - rp) == jp - rp)%Q) by (apply Qabs_pos; lra).
    rewrite Habs in Hpct.
    destruct (Qltb rp jp) eqn:Hgt; [exact Hpct|].
    apply Qltb_ge in Hgt.
    assert (Heq : (jp == rp)%Q) by (apply Qle_antisym; assumption).
    setoid_replace (jp - rp)%Q with 0%Q in Hpct by (rewrite Heq; ring).
    assert (Hz : (0 / jp * inject_Z 100 == 0)%Q) by (unfold Qdiv; ring).
    rewrite Hz in Hpct. exfalso.
    apply (Qlt_not_le 0 (1 # 2)); [reflexivity | exact Hpct].
Qed.

Lemma scanned_shape (b : ProductionArbitrageBot) (envs : nat -> ScanEnv)
  (o : ArbitrageOpportunity) :
  In o (opportunities (find_arbitrage_opportunities b envs)) ->
  In (token o) (tokens b) /\
  ((buy_dex o = JUPITER /\ sell_dex o = RAYDIUM) \/
   (buy_dex o = RAYDIUM /\ sell_dex o = JUPITER)) /\
  (exists x, In x trade_sizes /\ size_usd o = inject_Z x) /\
  (size_usd o <= max_position_size b)%Q /\
  (1 # 2 <= (sell_price o - buy_price o) / buy_price o * inject_Z 100)%Q /\
  (price_impact o == 2 # 1000)%Q /\
  (min_profit_usd b <= expected_profit o)%Q.
Proof.
  intro Hin. destruct (scan_facts.find_spec b envs) as (Hsub & _ & Hd).
  rewrite Forall_forall in Hd. specialize (Hd o Hin).
  destruct (discovered_candidate b o Hd) as (x & al & Hx & Hs & Hmax & Himp & _ & Hmin).
  destruct (discovered_venues_and_spread b o Hd) as [Hv Hspread].
  split; [|split; [exact Hv|split; [|split; [|split; [exact Hspread|split]]]]].
  - apply (scan_facts.subseq_In _ _ _ Hsub). apply in_map. exact Hin.
  - exists x. auto.
  - rewrite Hs. apply Qle_trans with (y := Qmin (max_position_size b) (al * (1 # 10)));
      [exact Hmax | apply Qmin_le_l].
  - rewrite Himp. reflexivity.
  - exact Hmin.
Qed.

(** X18.  Every opportunity the scanner returns is for a tracked token,
    buys on one of Jupiter and Raydium and sells on the other, has a size
    from the ladder that does not exceed [max_position_size], a sell price
    at least 0.5% above the buy price, a recorded impact of 0.2% and an
    expected profit of at least [min_profit_usd]. *)
Theorem scanned_opportunity_shape (b : ProductionArbitrageBot) (envs : nat -> ScanEnv)
  (o : ArbitrageOpportunity) :
  In o (opportunities (find_arbitrage_opportunities b envs)) ->
  In (token o) (tokens b) /\
  ((buy_dex o = JUPITER /\ sell_dex o = RAYDIUM) \/
   (buy_dex o = RAYDIUM /\ sell_dex o = JUPITER)) /\
  (exists x, In x trade_sizes /\ size_usd o = inject_Z x) /\
  (size_usd o <= max_position_size b)%Q /\
  (1 # 2 <= (sell_price o - buy_price o) / buy_price o * inject_Z 100)%Q /\
  (price_impact o == 2 # 1000)%Q /\
  (min_profit_usd b <= expected_profit o)%Q.
Proof.
  intros. eapply scanned_shape; eassumption.
Qed.

Lemma scanned_opportunity_shape_witness :
  exists o,
    In o (opportunities (find_arbitrage_opportunities test_bot two_percent_env)) /\
    In (token o) (tokens test_bot) /\
    (size_usd o <= max_position_size test_bot)%Q /\
    (price_impact o == 2 # 1000)%Q.
Proof.
  eexists. split; [vm_compute; left; reflexivity|].
  match goal with |- In (token ?o) _ /\ _ =>
    pose proof (scanned_opportunity_shape test_bot two_percent_env o) as H end.
  destruct H as (H1 & _ & _ & H4 & _ & H6 & _); [vm_compute; left; reflexivity|].
  repeat split; assumption.
Defined.

(** *** What [execute_arbitrage] returns *)

Lemma build_leg_result build dex i o_ a s f :
  snd (build_leg build dex i o_ a s f)
  = Ok (if DEX_eqb dex JUPITER then build i o_ a s f else None).
Proof. unfold build_leg. destruct (DEX_eqb dex JUPITER); reflexivity. Qed.

Lemma require_tx_result tx msg :
  snd (require_tx tx msg) = match tx with Some t => Ok t | None => Raise msg end.
Proof. destruct tx; reflexivity. Qed.

Lemma DEX_eqb_eq (a b : DEX) : DEX_eqb a b = true <-> a = b.
Proof. destruct a, b; simpl; split; intro H; try reflexivity; discriminate. Qed.

(** One step of a [try] block that ends well: the step itself ended well. *)
Ltac ok_step :=
  rewrite execute_facts.bind_result;
  match goal with
  | |- context [match snd ?m with _ => _ end] => destruct (snd m) eqn:?
  end; [|discriminate].

(** The record of a leg that was built: the venue is Jupiter. *)
Ltac leg_built H :=
  rewrite build_leg_result in H; injection H as H;
  match type of H with
  | context [DEX_eqb ?d JUPITER] =>
      let E := fresh "E" in
      destruct (DEX_eqb d JUPITER) eqn:E;
      [apply DEX_eqb_eq in E | subst; discriminate]
  end.

Lemma sequential_path_ok b env o res :
  snd (sequential_path b env o) = Ok res ->
  buy_dex o = JUPITER /\ sell_dex o = JUPITER /\ completed o res.
Proof.
  unfold sequential_path.
  ok_step. ok_step. ok_step. ok_step. ok_step. ok_step. ok_step. ok_step. ok_step.
  ok_step. ok_step.
  simpl. intro H. injection H as <-.
  repeat match goal with
         | H : snd (build_leg _ _ _ _ _ _ _) = Ok ?x, H' : snd (require_tx ?x _) = Ok _ |- _ =>
             rewrite require_tx_result in H'; destruct x; [|discriminate]; leg_built H
         end.
  unfold completed. simpl. repeat split; try assumption; discriminate.
Qed.

Lemma jito_path_ok b env o res :
  snd (jito_path b env o) = Ok res ->
  buy_dex o = JUPITER /\ sell_dex o = JUPITER /\ completed o res.
Proof.
  unfold jito_path.
  ok_step. ok_step. ok_step. ok_step. ok_step. ok_step. ok_step. ok_step. ok_step.
  match goal with a : (bool * string)%type |- _ => destruct a as [[|] bid] end;
    simpl; [|discriminate].
  intro H. injection H as <-.
  repeat match goal with
         | H : snd (build_leg _ _ _ _ _ _ _) = Ok ?x, H' : snd (require_tx ?x _) = Ok _ |- _ =>
             rewrite require_tx_result in H'; destruct x; [|discriminate]; leg_built H
         end.
  unfold completed. simpl. repeat split; try assumption; discriminate.
Qed.

Lemma execute_body_ok b env o res :
  snd (execute_body b env o) = Ok res ->
  buy_dex o = JUPITER /\ sell_dex o = JUPITER /\ completed o res.
Proof.
  unfold execute_body. ok_step. ok_step. ok_step. ok_step.
  match goal with x : bool |- _ => destruct x end;
    [apply jito_path_ok | apply sequential_path_ok].
Qed.

Lemma returned_result_kinds (b : ProductionArbitrageBot)
  (env : ExecEnv) (o : ArbitrageOpportunity) (r : TradeResult) :
  returned (execute_arbitrage b env o) = Ok r ->
  opportunity_id r = id o /\
  ((success r = true /\ error r = None /\ actual_profit r <> None /\
    buy_tx r <> None /\ sell_tx r <> None) \/
   (success r = false /\ error r <> None /\ actual_profit r = None /\
    buy_tx r = None /\ sell_tx r = None)).
Proof.
  unfold execute_arbitrage.
  destruct (negb (is_valid (utcnow env) o)).
  { intro H. injection H as <-. split; [reflexivity|]. right.
    simpl. repeat split. discriminate. }
  destruct (Qleb (max_daily_loss b) (daily_loss b)).
  { intro H. injection H as <-. split; [reflexivity|]. right.
    simpl. repeat split. discriminate. }
  destruct (execute_body b env o) as [tr [res|e]] eqn:Hb.
  - assert (Hs : snd (execute_body b env o) = Ok res) by (rewrite Hb; reflexivity).
    apply execute_body_ok in Hs as (_ & _ & Hid & Hc).
    destruct (save_trade env o res); simpl; [|discriminate].
    intro H. injection H as <-. split; [exact Hid|]. left. exact Hc.
  - destruct (save_trade env o (failed_result env o e)); simpl; [|discriminate].
    intro H. injection H as <-. split; [reflexivity|]. right.
    simpl. repeat split. discriminate.
Qed.

(** X19.  Whatever the collaborators do, a returned [TradeResult] carries
    the id of the opportunity and is of one of two kinds: a success, with
    no error, a realized profit and both transaction references; or a
    failure, with an error message and neither profit nor references. *)
Theorem returned_result_is_success_or_failure (b : ProductionArbitrageBot)
  (env : ExecEnv) (o : ArbitrageOpportunity) (r : TradeResult) :
  returned (execute_arbitrage b env o) = Ok r ->
  opportunity_id r = id o /\
  ((success r = true /\ error r = None /\ actual_profit r <> None /\
    buy_tx r <> None /\ sell_tx r <> None) \/
   (success r = false /\ error r <> None /\ actual_profit r = None /\
    buy_tx r = None /\ sell_tx r = None)).
Proof.
  intros. eapply returned_result_kinds; eassumption.
Qed.

Lemma returned_result_is_success_or_failure_witness :
  opportunity_id (failed_result env_rpc_down thin_opportunity "RPC connection failed")
  = id thin_opportunity /\
  ((success (failed_result env_rpc_down thin_opportunity "RPC connection failed") = true /\
    error (failed_result env_rpc_down thin_opportunity "RPC connection failed") = None /\
    actual_profit (failed_result env_rpc_down thin_opportunity "RPC connection failed")
    <> None /\
    buy_tx (failed_result env_rpc_down thin_opportunity "RPC connection failed") <> None /\
    sell_tx (failed_result env_rpc_down thin_opportunity "RPC connection failed") <> None) \/
   (success (failed_result env_rpc_down thin_opportunity "RPC connection failed") = false /\
    error (failed_result env_rpc_down thin_opportunity "RPC connection failed") <> None /\
    actual_profit (failed_result env_rpc_down thin_opportunity "RPC connection failed")
    = None /\
    buy_tx (failed_result env_rpc_down thin_opportunity "RPC connection failed") = None /\
    sell_tx (failed_result env_rpc_down thin_opportunity "RPC connection failed") = None)).
Proof.
  apply (returned_result_is_success_or_failure test_bot env_rpc_down thin_opportunity).
  reflexivity.
Defined.

(** X20.  [execute_arbitrage] can only build Jupiter legs: a call for an
    opportunity whose buy or sell venue is not Jupiter never returns a
    success, and once past the expiry and risk guards it adds 10 to the
    daily loss.  Every opportunity the scanner returns is of that kind,
    since it pairs Jupiter with Raydium. *)
Theorem non_jupiter_leg_never_succeeds (b : ProductionArbitrageBot) (env : ExecEnv)
  (o : ArbitrageOpportunity) :
  buy_dex o <> JUPITER \/ sell_dex o <> JUPITER ->
  (forall r, returned (execute_arbitrage b env o) = Ok r -> success r = false) /\
  (passes_guards b env o ->
   daily_loss (bot_after (execute_arbitrage b env o)) = (daily_loss b + inject_Z 10)%Q) /\
  (forall b' envs o',
      In o' (opportunities (find_arbitrage_opportunities b' envs)) ->
      buy_dex o' <> JUPITER \/ sell_dex o' <> JUPITER).
Proof.
  intro Hleg.
  assert (Hraise : exists e, snd (execute_body b env o) = Raise e).
  { destruct (snd (execute_body b env o)) as [res|e] eqn:E; [|eauto].
    apply execute_body_ok in E as (Hb & Hs & _). tauto. }
  destruct Hraise as [e He]. split; [|split].
  - intros r Hr.
    destruct (returned_result_kinds b env o r Hr)
      as [_ [(Hs & _)|(Hs & _)]]; [|exact Hs].
    exfalso. revert Hr Hs. unfold execute_arbitrage.
    destruct (negb (is_valid (utcnow env) o));
      [intro H; injection H as <-; discriminate|].
    destruct (Qleb (max_daily_loss b) (daily_loss b));
      [intro H; injection H as <-; discriminate|].
    destruct (execute_body b env o) as [tr [res|e']]; simpl in He; [discriminate|].
    destruct (save_trade env o _); simpl; [|discriminate].
    intro H. injection H as <-. discriminate.
  - intro Hg. rewrite (execute_facts.execute_past_guards b env o Hg). simpl.
    rewrite He. reflexivity.
  - intros b' envs o' Hin.
    destruct (scanned_shape b' envs o' Hin) as (_ & [[_ Hs]|[Hb _]] & _).
    + right. rewrite Hs. discriminate.
    + left. rewrite Hb. discriminate.
Qed.

Lemma non_jupiter_leg_never_succeeds_witness :
  (forall r, returned (execute_arbitrage test_bot env_ok
                         samples_ext.raydium_sale_opportunity) = Ok r ->
             success r = false) /\
  (passes_guards test_bot env_ok samples_ext.raydium_sale_opportunity ->
   daily_loss (bot_after (execute_arbitrage test_bot env_ok
                            samples_ext.raydium_sale_opportunity))
   = (daily_loss test_bot + inject_Z 10)%Q) /\
  (forall b' envs o',
      In o' (opportunities (find_arbitrage_opportunities b' envs)) ->
      buy_dex o' <> JUPITER \/ sell_dex o' <> JUPITER).
Proof.
  apply (non_jupiter_leg_never_succeeds test_bot env_ok
           samples_ext.raydium_sale_opportunity).
  right. discriminate.
Defined.

(** X21.  The sell leg is looked at only after the buy leg is on its way:
    when the buy venue is Jupiter and the sell venue is not, a sequential
    execution whose balance check, buy build, signature and submission all
    go well submits the buy transaction and then fails with "Failed to
    build sell transaction".  The failed result it builds does not mention
    the submitted transaction, and the daily loss grows by the fixed 10. *)
Theorem buy_submitted_before_sell_is_found_unbuildable (b : ProductionArbitrageBot)
  (env : ExecEnv) (o : ArbitrageOpportunity) (lamports : Z) (tx : Tx)
  (signature : string) :
  passes_guards b env o ->
  get_balance env = Ok lamports -> 100000000 <= lamports ->
  use_jito b = false ->
  buy_dex o = JUPITER -> sell_dex o <> JUPITER ->
  build_buy env (usdc_mint b) (mint (token o)) (buy_amount_of o) 100 (priority_fee b)
  = Some tx ->
  sign_buy env tx = Ok tt ->
  send_buy env tx = Ok signature ->
  ~ (buy_price o == 0)%Q ->
  In (SendTransaction tx) (trace (execute_arbitrage b env o)) /\
  built_result b env o = failed_result env o "Failed to build sell transaction" /\
  buy_tx (built_result b env o) = None /\
  (forall r, returned (execute_arbitrage b env o) = Ok r -> r = built_result b env o) /\
  daily_loss (bot_after (execute_arbitrage b env o)) = (daily_loss b + inject_Z 10)%Q.
Proof.
  intros Hg Hbal Hl Hj Hbuy Hsell Hbuild Hsign Hsend Hprice.
  assert (Hbody : execute_body b env o
            = ([RateLimit LimRpc; RpcGetBalance;
                BuildSwap (usdc_mint b) (mint (token o)) (buy_amount_of o) 100
                          (priority_fee b);
                RateLimit LimRpc; SendTransaction tx],
               Raise "Failed to build sell transaction")).
  { apply Z.ltb_ge in Hl.
    assert (Hs : DEX_eqb (sell_dex o) JUPITER = false).
    { destruct (DEX_eqb (sell_dex o) JUPITER) eqn:E; [|reflexivity].
      apply DEX_eqb_eq in E. contradiction. }
    assert (Hdiv : exists n, sell_amount_of o = Ok n).
    { unfold sell_amount_of, decimal_div.
      destruct (Qeq_bool (buy_price o) 0) eqn:E.
      - apply Qeq_bool_iff in E. contradiction.
      - simpl. eauto. }
    destruct Hdiv as [n Hn].
    unfold execute_body, sequential_path, build_leg, require_tx, bind, emit, call, lift,
      ret, raise.
    rewrite Hbal. cbv beta iota. rewrite Hl. cbv beta iota. rewrite Hj. cbv beta iota.
    rewrite Hbuy. cbn [DEX_eqb]. cbv beta iota. rewrite Hbuild. cbv beta iota.
    rewrite Hsign. cbv beta iota. rewrite Hsend. cbv beta iota.
    rewrite Hn. cbv beta iota. rewrite Hs. reflexivity. }
  assert (Hres : built_result b env o
                 = failed_result env o "Failed to build sell transaction").
  { unfold built_result. rewrite Hbody. reflexivity. }
  rewrite (execute_facts.execute_past_guards b env o Hg). cbn [trace returned bot_after].
  rewrite Hbody. cbn [fst snd]. repeat split.
  - apply in_or_app. left. simpl. tauto.
  - exact Hres.
  - rewrite Hres. reflexivity.
  - intros r. destruct (save_trade env o (built_result b env o)); [|discriminate].
    intro H. injection H as <-. reflexivity.
Qed.

Lemma buy_submitted_before_sell_is_found_unbuildable_witness :
  In (SendTransaction "buy-transaction")
     (trace (execute_arbitrage test_bot env_ok samples_ext.raydium_sale_opportunity)) /\
  built_result test_bot env_ok samples_ext.raydium_sale_opportunity
  = failed_result env_ok samples_ext.raydium_sale_opportunity
      "Failed to build sell transaction" /\
  buy_tx (built_result test_bot env_ok samples_ext.raydium_sale_opportunity) = None /\
  (forall r,
      returned (execute_arbitrage test_bot env_ok samples_ext.raydium_sale_opportunity)
      = Ok r ->
      r = built_result test_bot env_ok samples_ext.raydium_sale_opportunity) /\
  daily_loss (bot_after (execute_arbitrage test_bot env_ok
                           samples_ext.raydium_sale_opportunity))
  = (daily_loss test_bot + inject_Z 10)%Q.
Proof.
  apply (buy_submitted_before_sell_is_found_unbuildable test_bot env_ok
           samples_ext.raydium_sale_opportunity 1000000000 "buy-transaction"
           "buy-signature").
  - split; reflexivity.
  - reflexivity.
  - lia.
  - reflexivity.
  - reflexivity.
  - discriminate.
  - reflexivity.
  - reflexivity.
  - reflexivity.
  - discriminate.
Defined.



(** *** The selection of [monitor_loop] *)

Lemma insert_by_profit_perm x l : Permutation (insert_by_profit x l) (x :: l).
Proof.
  induction l as [|y t IH]; simpl; [reflexivity|].
  destruct (Qleb (expected_profit x) (expected_profit y)); [|reflexivity].
  rewrite IH. apply perm_swap.
Qed.

Lemma insert_by_profit_sorted x l :
  StronglySorted at_least_as_profitable l ->
  StronglySorted at_least_as_profitable (insert_by_profit x l).
Proof.
  induction 1 as [|y t Hs IH Hy]; simpl.
  - repeat constructor.
  - destruct (Qleb (expected_profit x) (expected_profit y)) eqn:E.
    + apply Qleb_le in E. constructor; [exact IH|].
      apply (@Permutation_Forall _ _ (x :: t)).
      * symmetry. apply insert_by_profit_perm.
      * constructor; [exact E | exact Hy].
    + apply Qleb_gt in E. constructor; [constructor; assumption|].
      constructor; [apply Qlt_le_weak; exact E|].
      eapply Forall_impl; [|exact Hy]. intros z Hz. unfold at_least_as_profitable in *.
      apply Qle_trans with (y := expected_profit y); [exact Hz|].
      apply Qlt_le_weak. exact E.
Qed.

Lemma sort_by_profit_spec l :
  Permutation (sort_by_profit l) l /\
  StronglySorted at_least_as_profitable (sort_by_profit l).
Proof.
  unfold sort_by_profit.
  assert (H : forall acc,
             StronglySorted at_least_as_profitable acc ->
             Permutation (fold_left (fun a x => insert_by_profit x a) l acc) (l ++ acc) /\
             StronglySorted at_least_as_profitable
               (fold_left (fun a x => insert_by_profit x a) l acc)).
  { induction l as [|x t IH]; intros acc Hacc; simpl.
    - split; [reflexivity | exact Hacc].
    - destruct (IH (insert_by_profit x acc) (insert_by_profit_sorted x acc Hacc))
        as [Hp Hs].
      split; [|exact Hs]. rewrite Hp, insert_by_profit_perm.
      symmetry. apply Permutation_middle. }
  destruct (H [] (SSorted_nil _)) as [Hp Hs]. rewrite app_nil_r in Hp. auto.
Qed.

Lemma sorted_app_order (l1 l2 : list ArbitrageOpportunity) :
  StronglySorted at_least_as_profitable (l1 ++ l2) ->
  forall s r, In s l1 -> In r l2 -> at_least_as_profitable s r.
Proof.
  induction l1 as [|x t IH]; simpl; intros Hs s r Hin1 Hin2; [contradiction|].
  inversion Hs as [|? ? Ht Hx]; subst. destruct Hin1 as [<-|Hin1].
  - rewrite Forall_forall in Hx. apply Hx. apply in_or_app. right. exact Hin2.
  - exact (IH Ht s r Hin1 Hin2).
Qed.

Lemma in_firstn_in {A} (n : nat) (l : list A) (x : A) :
  In x (firstn n l) -> In x l.
Proof.
  revert l. induction n as [|n IH]; intros [|y t]; simpl; try contradiction.
  intros [H|H]; [left; exact H | right; exact (IH t H)].
Qed.

Lemma scanned_profit_floor (b : ProductionArbitrageBot) (envs : nat -> ScanEnv)
  (o : ArbitrageOpportunity) :
  In o (opportunities (find_arbitrage_opportunities b envs)) ->
  (min_profit_usd b <= expected_profit o)%Q.
Proof.
  intro Hin. destruct (scan_facts.find_spec b envs) as (_ & _ & Hd).
  rewrite Forall_forall in Hd. specialize (Hd o Hin).
  destruct (discovered_candidate b o Hd) as (x & al & _ & _ & _ & _ & _ & Hmin).
  exact Hmin.
Qed.

(** X23.  In each cycle [monitor_loop] creates at most three execution
    tasks, all for opportunities of the scan, each with an expected profit
    of at least [min_profit_usd], and none less profitable than an
    opportunity of the scan ranked behind the first three.  For the result
    of a scan by the same bot the profit filter removes nothing: the tasks
    are the first three of the ranking. *)
Theorem monitor_selects_most_profitable_three (b : ProductionArbitrageBot)
  (opps : list ArbitrageOpportunity) :
  (length (selected_for_execution b opps) <= 3)%nat /\
  incl (selected_for_execution b opps) opps /\
  Forall (fun o => (min_profit_usd b <= expected_profit o)%Q)
         (selected_for_execution b opps) /\
  Permutation (sort_by_profit opps) opps /\
  (forall s r,
      In s (selected_for_execution b opps) ->
      In r (skipn 3 (sort_by_profit opps)) ->
      (expected_profit r <= expected_profit s)%Q) /\
  (forall envs,
      selected_for_execution b (opportunities (find_arbitrage_opportunities b envs))
      = firstn 3 (sort_by_profit (opportunities (find_arbitrage_opportunities b envs)))).
Proof.
  destruct (sort_by_profit_spec opps) as [Hperm Hsorted].
  unfold selected_for_execution. repeat split.
  - eapply Nat.le_trans; [apply filter_length_le|]. apply firstn_le_length.
  - intros o Hin. apply filter_In in Hin as [Hin _].
    apply (Permutation_in _ Hperm). eapply in_firstn_in. exact Hin. 
  - apply Forall_forall. intros o Hin. apply filter_In in Hin as [_ H].
    apply Qleb_le. exact H.
  - exact Hperm.
  - intros s r Hs Hr. apply filter_In in Hs as [Hs _].
    rewrite <- (firstn_skipn 3 (sort_by_profit opps)) in Hsorted.
    exact (sorted_app_order _ _ Hsorted s r Hs Hr).
  - intro envs. apply forallb_filter_id. apply forallb_forall. intros o Hin.
    apply Qleb_le. apply in_firstn_in in Hin.
    destruct (sort_by_profit_spec (opportunities (find_arbitrage_opportunities b envs)))
      as [Hp _].
    apply (Permutation_in _ Hp) in Hin.
    exact (scanned_profit_floor b envs o Hin).
Qed.

(** *** The daily reset *)

Lemma health_round_bot_constants m env :
  max_daily_loss (bot (health_round m env)) = max_daily_loss (bot m) /\
  tokens (bot (health_round m env)) = tokens (bot m) /\
  min_profit_usd (bot (health_round m env)) = min_profit_usd (bot m).
Proof.
  unfold health_round.
  destruct (rpc_acquire env); [|auto].
  destruct (get_block_height env); [|auto]. destruct (health_get_balance env); [|auto].
  destruct (_ <? _); simpl; auto.
Qed.

(** X24.  A round of [health_check] resets the daily loss only when the
    rate limiter and both RPC queries answer and the date has moved past
    the date of the last reset.  If one of the three raises, the round
    leaves the bot and the reset date as they were, new day or not; on the
    same date the daily loss stays.  After a reset, a bot with a positive
    loss limit lets every unexpired opportunity past its risk guard
    again. *)
Theorem daily_loss_reset_needs_rpc_and_new_day (m : Monitored) (env : HealthEnv) :
  ((forall u, rpc_acquire env <> Ok u) \/
   (forall h, get_block_height env <> Ok h) \/
   (forall l, health_get_balance env <> Ok l) ->
   health_round m env = m) /\
  (forall u h l,
      rpc_acquire env = Ok u ->
      get_block_height env = Ok h -> health_get_balance env = Ok l ->
      (date_of (utcnow_compare env) <= date_of (last_loss_reset m) ->
       daily_loss (bot (health_round m env)) = daily_loss (bot m) /\
       last_loss_reset (health_round m env) = last_loss_reset m) /\
      (date_of (last_loss_reset m) < date_of (utcnow_compare env) ->
       daily_loss (bot (health_round m env)) = 0%Q /\
       last_loss_reset (health_round m env) = utcnow_anchor env /\
       ((0 < max_daily_loss (bot m))%Q ->
        forall env' o, utcnow env' < expires_at o ->
                       passes_guards (bot (health_round m env)) env' o))).
Proof.
  split.
  - unfold health_round. intros [H|[H|H]].
    + destruct (rpc_acquire env) as [u|]; [|reflexivity]. exfalso. exact (H u eq_refl).
    + destruct (rpc_acquire env); [|reflexivity].
      destruct (get_block_height env) as [h|]; [|reflexivity]. exfalso. exact (H h eq_refl).
    + destruct (rpc_acquire env); [|reflexivity].
      destruct (get_block_height env); [|reflexivity].
      destruct (health_get_balance env) as [l|]; [|reflexivity].
      exfalso. exact (H l eq_refl).
  - intros u h l Hu Hh Hl. split.
    + intro Hsame. unfold health_round. rewrite Hu, Hh, Hl.
      apply Z.ltb_ge in Hsame. rewrite Hsame. simpl. auto.
    + intro Hnew.
      assert (Hreset : daily_loss (bot (health_round m env)) = 0%Q /\
                       last_loss_reset (health_round m env) = utcnow_anchor env).
      { unfold health_round. rewrite Hu, Hh, Hl.
        apply Z.ltb_lt in Hnew. rewrite Hnew. simpl. auto. }
      destruct Hreset as [H0 Ha]. split; [exact H0|]. split; [exact Ha|].
      intros Hmax env' o Hvalid. split.
      * apply Z.ltb_lt. exact Hvalid.
      * apply Qleb_gt. rewrite H0.
        destruct (health_round_bot_constants m env) as [-> _]. exact Hmax.
Qed.

End bot_ext_facts.

(** ** The test suite, replayed on the model *)

Module test_suite.
Import arbitrage_bot samples.

(** [TestArbitrageOpportunity] *)
Example test_opportunity_creation : is_valid 1000000 thin_opportunity = true.
Proof. reflexivity. Qed.

Example test_opportunity_expiration : is_valid 10000001 thin_opportunity = false.
Proof. reflexivity. Qed.

(** [TestPriceCache]: a value is read back within the TTL and gone after. *)
Example test_cache_basic :
  let c := cache_set (mkPriceCache [] 1) "test_key" (1%Q, 2%Q) 0%Q in
  fst (cache_get c "test_key" (1 # 2)%Q) = Some (1%Q, 2%Q) /\
  fst (cache_get c "test_key" (11 # 10)%Q) = None /\
  cache (snd (cache_get c "test_key" (11 # 10)%Q)) = [].
Proof. repeat split. Qed.

(** [TestArbitrageBot.test_find_opportunities] *)
Example test_find_opportunities :
  exists o,
    opportunities (find_arbitrage_opportunities test_bot two_percent_env) = [o] /\
    buy_dex o = JUPITER /\ sell_dex o = RAYDIUM /\
    size_usd o = inject_Z 500 /\ (0 < expected_profit o)%Q.
Proof. eexists. split; [vm_compute; reflexivity|]. repeat split. Qed.

(** [TestArbitrageBot.test_no_opportunity_small_difference] *)
Example test_no_opportunity_small_difference :
  opportunities (find_arbitrage_opportunities test_bot tenth_percent_env) = [].
Proof. vm_compute. reflexivity. Qed.

(** [TestArbitrageBot.test_calculate_price_impact] *)
Example test_calculate_price_impact :
  calculate_price_impact test_token JUPITER (inject_Z 100) = (1 # 1000)%Q /\
  (calculate_price_impact test_token JUPITER (inject_Z 100)
   < calculate_price_impact test_token JUPITER (inject_Z 50000))%Q.
Proof. split; reflexivity. Qed.

(** [TestArbitrageBot.test_risk_management] *)
Example test_risk_management :
  returned (execute_arbitrage limited_bot env_ok thin_opportunity)
  = Ok (risk_limit_result thin_opportunity).
Proof. reflexivity. Qed.

(** [TestErrorHandling.test_rpc_failure_handling] *)
Example test_rpc_failure_handling :
  returned (execute_arbitrage test_bot env_rpc_down thin_opportunity)
  = Ok (failed_result env_rpc_down thin_opportunity "RPC connection failed").
Proof. reflexivity. Qed.

End test_suite.
